(** * Sliding-window rate limiter and rate-limited WebSocket gate

    A shallow embedding of [src/rate-limiter.ts] and of the message path of
    [src/websocket-handler.ts], followed by the properties established
    about them.

    Modelling conventions.
    - Moments and durations are JavaScript numbers holding integral
      milliseconds; they are modelled by [Z].  [Date.now()] is read once per
      call in the source, so every operation takes the current moment [now]
      as an argument.
    - The [Map<string, ClientState>] of the limiter is a [gmap string
      ClientState].  A [ClientState] object is reachable only through its
      map entry, so an in-place mutation of the object is an [insert] of the
      mutated record under the same key.
    - An optional field ([blockedUntil?], [blocked?], [blockDurationMs?]) is
      an [option]; JavaScript truthiness of an optional number is
      [truthy]: [undefined] and [0] are both falsy. *)

From stdpp Require Import gmap strings list fin_maps sorting.

Local Open Scope Z_scope.

(* ===================================================================== *)
(** * The limiter: src/rate-limiter.ts                                    *)
(* ===================================================================== *)

Module Limiter.

(** [interface RateLimiterConfig]: what the caller passes in. *)
Record RateLimiterConfig := mkRateLimiterConfig {
  maxRequests : Z;
  windowMs : Z;
  blockDurationMs : option Z
}.

(** [Required<RateLimiterConfig>]: what the constructor stores. *)
Record ResolvedConfig := mkResolvedConfig {
  cfg_maxRequests : Z;
  cfg_windowMs : Z;
  cfg_blockDurationMs : Z
}.

(** [interface ClientState]. *)
Record ClientState := mkClientState {
  requests : list Z;
  blockedUntil : option Z
}.

(** [interface RateLimitResult]; [blocked] is left out of the object on
    the admitting path. *)
Record RateLimitResult := mkRateLimitResult {
  allowed : bool;
  remaining : Z;
  resetMs : Z;
  blocked : option bool
}.

(** [class RateLimiter], without its timer handle. *)
Record RateLimiter := mkRateLimiter {
  config : ResolvedConfig;
  clients : gmap string ClientState
}.

(** [constructor(config)]: [blockDurationMs ?? 0]. *)
Definition new_RateLimiter (c : RateLimiterConfig) : RateLimiter :=
  {| config := {| cfg_maxRequests := maxRequests c;
                  cfg_windowMs := windowMs c;
                  cfg_blockDurationMs := default 0 (blockDurationMs c) |};
     clients := ∅ |}.

(** Truthiness of [state.blockedUntil]. *)
Definition truthy (v : option Z) : bool :=
  match v with
  | Some b => negb (b =? 0)
  | None => false
  end.

(** The condition of line 59: [state.blockedUntil && now < state.blockedUntil]. *)
Definition isActiveBlock (now : Z) (state : ClientState) : bool :=
  truthy (blockedUntil state) && (now <? default 0 (blockedUntil state)).

(** Lines 66-70, the [else if (state.blockedUntil)] branch. *)
Definition expireBlock (state : ClientState) : ClientState :=
  if truthy (blockedUntil state)
  then {| requests := []; blockedUntil := None |}
  else state.

(** Lines 73-74 (and 155/159, 181/182):
    [requests.filter(ts => ts > now - windowMs)]. *)
Definition trimWindow (cfg : ResolvedConfig) (now : Z) (reqs : list Z) : list Z :=
  filter (λ ts, now - cfg_windowMs cfg < ts) reqs.

(** The body of [check] from line 58 on, on the client's state object. *)
Definition check_state (cfg : ResolvedConfig) (now : Z) (state : ClientState)
  : RateLimitResult * ClientState :=
  if isActiveBlock now state then
    ({| allowed := false;
        remaining := 0;
        resetMs := default 0 (blockedUntil state) - now;
        blocked := Some true |},
     state)
  else
    let state := expireBlock state in
    let reqs := trimWindow cfg now (requests state) in
    let remaining := cfg_maxRequests cfg - Z.of_nat (length reqs) in
    let oldestRequest := default now (head reqs) in
    let resetMs := Z.max 0 (oldestRequest + cfg_windowMs cfg - now) in
    if cfg_maxRequests cfg <=? Z.of_nat (length reqs) then
      ({| allowed := false;
          remaining := 0;
          resetMs := if 0 <? cfg_blockDurationMs cfg
                     then cfg_blockDurationMs cfg else resetMs;
          blocked := Some (0 <? cfg_blockDurationMs cfg) |},
       {| requests := reqs;
          blockedUntil := if 0 <? cfg_blockDurationMs cfg
                          then Some (now + cfg_blockDurationMs cfg)
                          else blockedUntil state |})
    else
      ({| allowed := true;
          remaining := remaining - 1;
          resetMs := resetMs;
          blocked := None |},
       {| requests := reqs ++ [now];
          blockedUntil := blockedUntil state |}).

(** What [check] works on: the tracked state, or a fresh one (lines 51-56). *)
Definition stateOf (rl : RateLimiter) (clientId : string) : ClientState :=
  default {| requests := []; blockedUntil := None |} (clients rl !! clientId).

(** [check(clientId)] at moment [now]. *)
Definition check (now : Z) (clientId : string) (rl : RateLimiter)
  : RateLimitResult * RateLimiter :=
  let (result, state) := check_state (config rl) now (stateOf rl clientId) in
  (result, {| config := config rl;
              clients := <[clientId := state]> (clients rl) |}).

(** [consume(clientId)]: pushes the moment when the client is tracked. *)
Definition consume (now : Z) (clientId : string) (rl : RateLimiter) : RateLimiter :=
  match clients rl !! clientId with
  | Some state =>
      {| config := config rl;
         clients := <[clientId := {| requests := requests state ++ [now];
                                     blockedUntil := blockedUntil state |}]>
                      (clients rl) |}
  | None => rl
  end.

(** [reset(clientId)]. *)
Definition reset (clientId : string) (rl : RateLimiter) : RateLimiter :=
  {| config := config rl; clients := delete clientId (clients rl) |}.

(** [clear()]. *)
Definition clear (rl : RateLimiter) : RateLimiter :=
  {| config := config rl; clients := ∅ |}.

(** One iteration of the loop of [cleanup]: [Some] is the state the entry
    keeps, [None] is [this.clients.delete(clientId)]. *)
Definition cleanup_entry (cfg : ResolvedConfig) (now : Z) (state : ClientState)
  : option ClientState :=
  let reqs := trimWindow cfg now (requests state) in
  let bu := if truthy (blockedUntil state)
               && (default 0 (blockedUntil state) <=? now)
            then None else blockedUntil state in
  if bool_decide (length reqs = 0%nat) && negb (truthy bu)
  then None
  else Some {| requests := reqs; blockedUntil := bu |}.

(** [cleanup()]: every entry is visited once. *)
Definition cleanup (now : Z) (rl : RateLimiter) : RateLimiter :=
  {| config := config rl;
     clients := omap (cleanup_entry (config rl) now) (clients rl) |}.

(** The object returned by [getClientState]. *)
Record ClientSnapshot := mkClientSnapshot {
  requestCount : nat;
  snap_blocked : bool;
  snap_blockedUntil : option Z
}.

(** [getClientState(clientId)]. *)
Definition getClientState (now : Z) (clientId : string) (rl : RateLimiter)
  : option ClientSnapshot :=
  match clients rl !! clientId with
  | None => None
  | Some state =>
      Some {| requestCount := length (trimWindow (config rl) now (requests state));
              snap_blocked := isActiveBlock now state;
              snap_blockedUntil := blockedUntil state |}
  end.

(** [get clientCount()]. *)
Definition clientCount (rl : RateLimiter) : nat := size (clients rl).

(** [RateLimitPresets]. *)
Definition RateLimitPresets_strict : RateLimiterConfig :=
  {| maxRequests := 10; windowMs := 10000; blockDurationMs := Some 30000 |}.
Definition RateLimitPresets_standard : RateLimiterConfig :=
  {| maxRequests := 30; windowMs := 10000; blockDurationMs := None |}.
Definition RateLimitPresets_lenient : RateLimiterConfig :=
  {| maxRequests := 100; windowMs := 60000; blockDurationMs := None |}.
Definition RateLimitPresets_burst : RateLimiterConfig :=
  {| maxRequests := 50; windowMs := 1000; blockDurationMs := None |}.

End Limiter.

Import Limiter.

(* ===================================================================== *)
(** * The error catalogue: src/errors.ts (the part the gate uses)         *)
(* ===================================================================== *)

Module Errors.

(** [ErrorCodes]. *)
Inductive ErrorCode :=
| RATE_LIMIT_EXCEEDED
| INVALID_MESSAGE
| INVALID_JSON
| MISSING_TYPE
| UNKNOWN_MESSAGE_TYPE
| INVALID_PAYLOAD
| UNAUTHORIZED
| FORBIDDEN
| HANDLER_ERROR
| INTERNAL_ERROR
| SERVICE_UNAVAILABLE.

(** The name of a code, as it is interpolated into a log line. *)
Definition codeName (code : ErrorCode) : string :=
  match code with
  | RATE_LIMIT_EXCEEDED => "RATE_LIMIT_EXCEEDED"
  | INVALID_MESSAGE => "INVALID_MESSAGE"
  | INVALID_JSON => "INVALID_JSON"
  | MISSING_TYPE => "MISSING_TYPE"
  | UNKNOWN_MESSAGE_TYPE => "UNKNOWN_MESSAGE_TYPE"
  | INVALID_PAYLOAD => "INVALID_PAYLOAD"
  | UNAUTHORIZED => "UNAUTHORIZED"
  | FORBIDDEN => "FORBIDDEN"
  | HANDLER_ERROR => "HANDLER_ERROR"
  | INTERNAL_ERROR => "INTERNAL_ERROR"
  | SERVICE_UNAVAILABLE => "SERVICE_UNAVAILABLE"
  end.

(** [ErrorDefinitions[code].statusCode]. *)
Definition statusCode (code : ErrorCode) : Z :=
  match code with
  | RATE_LIMIT_EXCEEDED => 429
  | INVALID_MESSAGE | INVALID_JSON | MISSING_TYPE | INVALID_PAYLOAD => 400
  | UNKNOWN_MESSAGE_TYPE => 404
  | UNAUTHORIZED => 401
  | FORBIDDEN => 403
  | HANDLER_ERROR | INTERNAL_ERROR => 500
  | SERVICE_UNAVAILABLE => 503
  end.

(** [ErrorDefinitions[code].title]. *)
Definition title (code : ErrorCode) : string :=
  match code with
  | RATE_LIMIT_EXCEEDED => "Rate Limit Exceeded"
  | INVALID_MESSAGE => "Invalid Message"
  | INVALID_JSON => "Invalid JSON"
  | MISSING_TYPE => "Missing Message Type"
  | UNKNOWN_MESSAGE_TYPE => "Unknown Message Type"
  | INVALID_PAYLOAD => "Invalid Payload"
  | UNAUTHORIZED => "Unauthorized"
  | FORBIDDEN => "Forbidden"
  | HANDLER_ERROR => "Handler Error"
  | INTERNAL_ERROR => "Internal Server Error"
  | SERVICE_UNAVAILABLE => "Service Unavailable"
  end.

(** [ErrorDefinitions[code].recoverable]. *)
Definition recoverable (code : ErrorCode) : bool :=
  match code with
  | FORBIDDEN => false
  | _ => true
  end.

(** [interface ErrorResponse], without its prose ([message], the text of
    [suggestion], [details]) and without [timestamp]. *)
Record ErrorResponse := mkErrorResponse {
  code : ErrorCode;
  resp_statusCode : Z;
  resp_title : string;
  hasSuggestion : bool;
  resp_recoverable : bool;
  retryAfterMs : option Z
}.

(** [createErrorResponse(code, options)] for a catalogued code (the only
    kind [ErrorCode] has).  [retryAfterMs] is spread into the object only
    when it is truthy. *)
Definition createErrorResponse (c : ErrorCode) (includeSuggestion : bool)
    (retry : option Z) : ErrorResponse :=
  {| code := c;
     resp_statusCode := statusCode c;
     resp_title := title c;
     hasSuggestion := includeSuggestion;
     resp_recoverable := recoverable c;
     retryAfterMs := if truthy retry then retry else None |}.

(** [formatErrorForLogging(code, {clientId, messageType, error})]: the
    parts joined by [" | "]; an empty string is falsy and adds no part. *)
Definition formatErrorForLogging (c : ErrorCode) (clientId messageType : string)
    (errorMessage : string) : string :=
  String.concat " | "
    (["[" +:+ codeName c +:+ "]"; title c]
     ++ (if bool_decide (clientId = "") then [] else ["client=" +:+ clientId])
     ++ (if bool_decide (messageType = "") then [] else ["type=" +:+ messageType])
     ++ ["error=" +:+ errorMessage]).

(** [CloseCode.RATE_LIMITED]. *)
Definition CloseCode_RATE_LIMITED : Z := 4029.

End Errors.

Import Errors.

(* ===================================================================== *)
(** * The gate: src/websocket-handler.ts                                  *)
(* ===================================================================== *)

Module Gate.

(** The values [JSON.parse] returns.  A number keeps its source text: the
    gate never computes with it.  An object is the list of its own
    properties. *)
#[local] Set Warnings "-register-all".
Inductive JSON :=
| JNull
| JBool (b : bool)
| JNumber (text : string)
| JString (s : string)
| JArray (items : list JSON)
| JObject (fields : list (string * JSON)).

(** What a handler can throw: an [Error] with its [message], or any
    other value, with the text [String(value)] yields ([None] when the
    conversion itself throws, as for an object without a prototype). *)
Inductive Thrown :=
| ErrorObject (message : string)
| NonError (asString : option string).

(** What the engine raises inside the gate: reading a property of
    [null], or converting to a string a value that cannot be. *)
Inductive Exception :=
| TypeError (what : string).

(** [interface WebSocketClient]: [send] and [close] are recorded as
    events. *)
Record WebSocketClient := mkWebSocketClient { id : string }.

(** What running a registered handler to completion amounts to for the
    gate: the texts it sent and a normal return (or a fulfilled promise),
    or a throw (or a rejected promise, which [await] rethrows). *)
Inductive HandlerOutcome :=
| Fulfilled (sent : list string)
| Failed (e : Thrown).

Definition MessageHandler : Type := WebSocketClient → JSON → HandlerOutcome.

(** Everything the gate does to the outside, in order. *)
Inductive Event :=
| SendError (to : string) (payload : ErrorResponse)
| SendText (to : string) (data : string)
| Close (who : string) (closeCode : Z) (reason : string)
| OnRateLimitExceeded (who : string) (result : RateLimitResult)
| ConsoleError (line : string).

(** [Required<Omit<RateLimitedHandlerConfig, 'rateLimit'>>]; the denial
    callback is observed through its [OnRateLimitExceeded] event. *)
Record HandlerOptions := mkHandlerOptions {
  closeOnRateLimit : bool;
  getClientId : WebSocketClient → string;
  includeSuggestions : bool
}.

(** [class RateLimitedWebSocketServer]. *)
Record RateLimitedWebSocketServer := mkServer {
  rateLimiter : RateLimiter;
  handlers : gmap string MessageHandler;
  options : HandlerOptions
}.

(** The defaults of the constructor. *)
Definition defaultOptions : HandlerOptions :=
  {| closeOnRateLimit := false;
     getClientId := id;
     includeSuggestions := true |}.

(** [constructor(rateLimitConfig, options)]. *)
Definition new_Server (rateLimitConfig : RateLimiterConfig) (o : HandlerOptions)
  : RateLimitedWebSocketServer :=
  {| rateLimiter := new_RateLimiter rateLimitConfig;
     handlers := ∅;
     options := o |}.

(** [on(messageType, handler)]. *)
Definition on (messageType : string) (h : MessageHandler)
    (srv : RateLimitedWebSocketServer) : RateLimitedWebSocketServer :=
  {| rateLimiter := rateLimiter srv;
     handlers := <[messageType := h]> (handlers srv);
     options := options srv |}.

(** [off(messageType)]. *)
Definition off (messageType : string) (srv : RateLimitedWebSocketServer)
  : RateLimitedWebSocketServer :=
  {| rateLimiter := rateLimiter srv;
     handlers := delete messageType (handlers srv);
     options := options srv |}.

(** [resetClient(clientId)]. *)
Definition resetClient (clientId : string) (srv : RateLimitedWebSocketServer)
  : RateLimitedWebSocketServer :=
  {| rateLimiter := reset clientId (rateLimiter srv);
     handlers := handlers srv;
     options := options srv |}.

(** [destroy()]. *)
Definition destroy (srv : RateLimitedWebSocketServer) : RateLimitedWebSocketServer :=
  {| rateLimiter := clear (rateLimiter srv);
     handlers := ∅;
     options := options srv |}.

(** The first own property named [key]. *)
Fixpoint property (key : string) (fields : list (string * JSON)) : option JSON :=
  match fields with
  | [] => None
  | (k, v) :: rest => if bool_decide (k = key) then Some v else property key rest
  end.

(** The expression [message.type]: a [TypeError] on [null], [undefined]
    ([None]) on a value that has no such property. *)
Definition typeField (message : JSON) : Exception + option JSON :=
  match message with
  | JNull => inl (TypeError "Cannot read properties of null (reading 'type')")
  | JObject fields => inr (property "type" fields)
  | JBool _ | JNumber _ | JString _ | JArray _ => inr None
  end.

(** The message type when line 155 lets the message through:
    [message.type] is truthy and [typeof message.type === 'string']. *)
Definition validType (ty : option JSON) : option string :=
  match ty with
  | Some (JString s) => if bool_decide (s = "") then None else Some s
  | _ => None
  end.

(** [sendRateLimitError(client, result)]. *)
Definition sendRateLimitError (o : HandlerOptions) (client : WebSocketClient)
    (result : RateLimitResult) : Event :=
  SendError (id client)
    (createErrorResponse RATE_LIMIT_EXCEEDED (includeSuggestions o)
       (Some (resetMs result))).

(** How the promise returned by [handleMessage] settles. *)
Inductive Completion :=
| Resolved
| Rejected (e : Exception).

Section HandleMessage.

(** [JSON.parse] is the engine's; [None] is its [SyntaxError]. *)
Variable JSON_parse : string → option JSON.

(** Lines 179-197: the handler is awaited inside [try]; the [catch]
    block logs and answers, and is itself unprotected. *)
Definition runHandler (o : HandlerOptions) (clientId : string)
    (client : WebSocketClient) (messageType : string)
    (handler : MessageHandler) (message : JSON)
  : Completion * list Event :=
  match handler client message with
  | Fulfilled sent => (Resolved, SendText (id client) <$> sent)
  | Failed e =>
      let answer :=
        SendError (id client)
          (createErrorResponse HANDLER_ERROR (includeSuggestions o) None) in
      match e with
      | ErrorObject msg =>
          (Resolved,
           [ConsoleError (formatErrorForLogging HANDLER_ERROR clientId messageType msg);
            answer])
      | NonError (Some text) =>
          (Resolved,
           [ConsoleError (formatErrorForLogging HANDLER_ERROR clientId messageType text);
            answer])
      | NonError None =>
          (Rejected (TypeError "Cannot convert object to primitive value"), [])
      end
  end.

(** [async handleMessage(client, rawMessage)] at moment [now]: how the
    returned promise settles, what was done to the outside, and the
    server afterwards. *)
Definition handleMessage (now : Z) (client : WebSocketClient)
    (rawMessage : string) (srv : RateLimitedWebSocketServer)
  : Completion * list Event * RateLimitedWebSocketServer :=
  let o := options srv in
  let clientId := getClientId o client in
  let (result, rl) := check now clientId (rateLimiter srv) in
  let srv := {| rateLimiter := rl; handlers := handlers srv; options := o |} in
  if negb (allowed result) then
    (Resolved,
     [sendRateLimitError o client result;
      OnRateLimitExceeded (id client) result]
     ++ (if closeOnRateLimit o
         then [Close (id client) CloseCode_RATE_LIMITED "Rate limit exceeded"]
         else []),
     srv)
  else
    match JSON_parse rawMessage with
    | None =>
        (Resolved,
         [SendError (id client)
            (createErrorResponse INVALID_JSON (includeSuggestions o) None)],
         srv)
    | Some message =>
        match typeField message with
        | inl e => (Rejected e, [], srv)
        | inr ty =>
            match validType ty with
            | None =>
                (Resolved,
                 [SendError (id client)
                    (createErrorResponse MISSING_TYPE (includeSuggestions o) None)],
                 srv)
            | Some messageType =>
                match handlers srv !! messageType with
                | None =>
                    (Resolved,
                     [SendError (id client)
                        (createErrorResponse UNKNOWN_MESSAGE_TYPE
                           (includeSuggestions o) None)],
                     srv)
                | Some handler =>
                    let (completion, events) :=
                      runHandler o clientId client messageType handler message in
                    (completion, events, srv)
                end
            end
        end
    end.

End HandleMessage.

End Gate.

Import Gate.

(* ===================================================================== *)
(** * The wrapping handler: createRateLimitedHandler                      *)
(* ===================================================================== *)

Module Factory.

(** [interface RateLimitedHandlerConfig].  The denial callback is observed
    through its event, so the field records whether one was supplied. *)
Record RateLimitedHandlerConfig := mkRateLimitedHandlerConfig {
  rateLimit : RateLimiterConfig;
  onRateLimitExceeded : bool;
  closeOnRateLimit : option bool;
  getClientId : option (WebSocketClient → string);
  includeSuggestions : option bool
}.

(** How the promise of the wrapping handler settles: nothing is caught, so
    a rejection carries what the wrapped handler threw. *)
Inductive Settled :=
| Done
| Thrown_ (e : Thrown).

(** The [rateLimitedHandler] closure of [createRateLimitedHandler(handler,
    config)], run at moment [now] on the limiter the closure owns. *)
Definition rateLimitedHandler (handler : MessageHandler)
    (cfg : RateLimitedHandlerConfig) (now : Z) (client : WebSocketClient)
    (message : JSON) (rl : RateLimiter)
  : Settled * list Event * RateLimiter :=
  let clientId := default id (getClientId cfg) client in
  let (result, rl) := check now clientId rl in
  if negb (allowed result) then
    (Done,
     [SendError (id client)
        (createErrorResponse RATE_LIMIT_EXCEEDED
           (default true (includeSuggestions cfg)) (Some (resetMs result)))]
     ++ (if onRateLimitExceeded cfg
         then [OnRateLimitExceeded (id client) result] else [])
     ++ (if default false (closeOnRateLimit cfg)
         then [Close (id client) CloseCode_RATE_LIMITED "Rate limit exceeded"]
         else []),
     rl)
  else
    match handler client message with
    | Fulfilled sent => (Done, SendText (id client) <$> sent, rl)
    | Failed e => (Thrown_ e, [], rl)
    end.

(** [createRateLimitedHandler(handler, config)]: the wrapping handler and
    the fresh limiter it closes over. *)
Definition createRateLimitedHandler (handler : MessageHandler)
    (cfg : RateLimitedHandlerConfig)
  : (Z → WebSocketClient → JSON → RateLimiter
     → Settled * list Event * RateLimiter) * RateLimiter :=
  (rateLimitedHandler handler cfg, new_RateLimiter (rateLimit cfg)).

End Factory.

(* ===================================================================== *)
(** * Call histories                                                      *)
(* ===================================================================== *)

(** A history of [check] calls: at each moment, one client calls. *)
Definition Call : Type := Z * string.

(** The limiter run over a history from [rl]: the result of every call, in
    order, and the limiter at the end. *)
Fixpoint run (rl : RateLimiter) (calls : list Call)
  : list RateLimitResult * RateLimiter :=
  match calls with
  | [] => ([], rl)
  | (now, clientId) :: rest =>
      let (result, rl') := check now clientId rl in
      let (results, rl'') := run rl' rest in
      (result :: results, rl'')
  end.

(** The moments of the calls of [clientId] that a history run from [rl]
    answered with [allowed = true]. *)
Definition admitted (clientId : string) (rl : RateLimiter) (calls : list Call)
  : list Z :=
  (λ cr : Call * RateLimitResult, cr.1.1)
    <$> filter (λ cr : Call * RateLimitResult,
                  cr.1.2 = clientId ∧ allowed cr.2 = true)
          (zip calls (run rl calls).1).

(** The trailing window ending at [T]: the moments in (T - windowMs, T]. *)
Definition inWindow (cfg : ResolvedConfig) (T : Z) (ts : Z) : Prop :=
  T - cfg_windowMs cfg < ts ∧ ts ≤ T.

#[global] Instance inWindow_dec cfg T ts : Decision (inWindow cfg T ts).
Proof. unfold inWindow. apply _. Defined.

(** How many admissions of [clientId] fall in the window ending at [T]. *)
Definition admittedInWindow (clientId : string) (rl : RateLimiter)
    (calls : list Call) (T : Z) : nat :=
  length (filter (inWindow (config rl) T) (admitted clientId rl calls)).

(** The clock does not run backwards over a history. *)
Definition monotone (calls : list Call) : Prop :=
  Sorted Z.le (fst <$> calls).

(* ===================================================================== *)
(** * The paths through [check], scenarios and invariants                 *)
(* ===================================================================== *)

(** The three ways through [check_state]. *)
Inductive CheckPath (cfg : ResolvedConfig) (now : Z) (st : ClientState)
  : RateLimitResult → ClientState → Prop :=
| path_blocked b :
    blockedUntil st = Some b → b ≠ 0 → now < b →
    CheckPath cfg now st
      {| allowed := false; remaining := 0; resetMs := b - now;
         blocked := Some true |}
      st
| path_full :
    isActiveBlock now st = false →
    cfg_maxRequests cfg
      ≤ Z.of_nat (length (trimWindow cfg now (requests (expireBlock st)))) →
    CheckPath cfg now st
      {| allowed := false; remaining := 0;
         resetMs :=
           if 0 <? cfg_blockDurationMs cfg then cfg_blockDurationMs cfg
           else Z.max 0
                  (default now (head (trimWindow cfg now (requests (expireBlock st))))
                   + cfg_windowMs cfg - now);
         blocked := Some (0 <? cfg_blockDurationMs cfg) |}
      {| requests := trimWindow cfg now (requests (expireBlock st));
         blockedUntil :=
           if 0 <? cfg_blockDurationMs cfg
           then Some (now + cfg_blockDurationMs cfg)
           else blockedUntil (expireBlock st) |}
| path_admit :
    isActiveBlock now st = false →
    Z.of_nat (length (trimWindow cfg now (requests (expireBlock st))))
      < cfg_maxRequests cfg →
    CheckPath cfg now st
      {| allowed := true;
         remaining :=
           cfg_maxRequests cfg
           - Z.of_nat (length (trimWindow cfg now (requests (expireBlock st)))) - 1;
         resetMs :=
           Z.max 0
             (default now (head (trimWindow cfg now (requests (expireBlock st))))
              + cfg_windowMs cfg - now);
         blocked := None |}
      {| requests := trimWindow cfg now (requests (expireBlock st)) ++ [now];
         blockedUntil := blockedUntil (expireBlock st) |}.

(** The policy [{maxRequests: 1, windowMs: 50, blockDurationMs: 100}]. *)
Definition blockingPolicy : RateLimiterConfig :=
  {| maxRequests := 1; windowMs := 50; blockDurationMs := Some 100 |}.

(** A fresh limiter of five requests per 50 ms. *)
Definition shortWindow : RateLimiter :=
  new_RateLimiter {| maxRequests := 5; windowMs := 50; blockDurationMs := None |}.

(** A policy whose block is shorter than its window. *)
Definition shortBlockPolicy : RateLimiterConfig :=
  {| maxRequests := 2; windowMs := 1000; blockDurationMs := Some 10 |}.

(** A history in which the third call is denied and sets a block until 12,
    and two more calls follow the expiry of that block. *)
Definition shortBlockHistory : list Call :=
  [(0, "c"); (1, "c"); (2, "c"); (12, "c"); (13, "c")].

(** A stand-in for [JSON.parse] on the three literal texts, to run the gate
    on them. *)
Definition parseLiteral (text : string) : option JSON :=
  if bool_decide (text = "null") then Some JNull
  else if bool_decide (text = "true") then Some (JBool true)
  else if bool_decide (text = "false") then Some (JBool false)
  else None.

(** [new RateLimitedWebSocketServer()]: the standard preset and the
    default options. *)
Definition standardServer : RateLimitedWebSocketServer :=
  new_Server RateLimitPresets_standard defaultOptions.

(** What holds of a client's state at a moment [last] no earlier than any
    call so far: the sequence is in chronological order, holds nothing
    from the future, is never longer than the quota, and no block is set
    under a policy without block duration. *)
Record client_ok (cfg : ResolvedConfig) (last : Z) (st : ClientState) : Prop := {
  ok_sorted : StronglySorted Z.le (requests st);
  ok_past : Forall (λ ts, ts ≤ last) (requests st);
  ok_quota : Z.of_nat (length (requests st)) ≤ cfg_maxRequests cfg;
  ok_unblocked : cfg_blockDurationMs cfg ≤ 0 → blockedUntil st = None
}.

(** How a client's state relates to the moments [A] at which it has been
    admitted so far, at a moment [last] no earlier than any call so far:
    inside the current window the sequence and the admissions agree; a
    block that is set ends after every admission has left the window;
    and no trailing window holds more admissions than the quota. *)
Record history_inv (cfg : ResolvedConfig) (last : Z) (A : list Z)
    (st : ClientState) : Prop := {
  inv_past : Forall (λ a, a ≤ last) A;
  inv_window : trimWindow cfg last (requests st) = trimWindow cfg last A;
  inv_block : ∀ b, blockedUntil st = Some b → b ≠ 0 →
                   Forall (λ a, a ≤ b - cfg_windowMs cfg) A;
  inv_quota : ∀ T, Z.of_nat (length (filter (inWindow cfg T) A))
                   ≤ cfg_maxRequests cfg
}.



(** The text [{"type":"ping"}], and a stand-in for [JSON.parse] that knows
    it besides the three literals. *)
Definition pingText : string :=
  let q := String (Ascii.ascii_of_nat 34) EmptyString in
  "{" +:+ q +:+ "type" +:+ q +:+ ":" +:+ q +:+ "ping" +:+ q +:+ "}".

Definition pingMessage : JSON := JObject [("type", JString "ping")].

Definition parsePing (text : string) : option JSON :=
  if bool_decide (text = pingText) then Some pingMessage else parseLiteral text.

(** A handler that throws [new Error("boom")], and one that answers. *)
Definition failingHandler : MessageHandler :=
  λ _ _, Failed (ErrorObject "boom").

Definition pongHandler : MessageHandler :=
  λ _ _, Fulfilled ["pong"].

(** A server of one request per second. *)
Definition tightServer : RateLimitedWebSocketServer :=
  new_Server {| maxRequests := 1; windowMs := 1000; blockDurationMs := None |}
    defaultOptions.

(* ===================================================================== *)
(** * Basic facts about the trim and about [check]                        *)
(* ===================================================================== *)

Section Trim.

Variable cfg : ResolvedConfig.

Lemma elem_of_trimWindow now l ts :
  ts ∈ trimWindow cfg now l ↔ now - cfg_windowMs cfg < ts ∧ ts ∈ l.
Proof. unfold trimWindow. apply list_elem_of_filter. Qed.

Lemma trimWindow_Forall now l :
  Forall (λ ts, now - cfg_windowMs cfg < ts) (trimWindow cfg now l).
Proof.
  apply Forall_forall. intros ts Hts.
  by apply elem_of_trimWindow in Hts as [? _].
Qed.

Lemma trimWindow_app now l k :
  trimWindow cfg now (l ++ k) = trimWindow cfg now l ++ trimWindow cfg now k.
Proof. apply filter_app. Qed.

Lemma trimWindow_id now l :
  Forall (λ ts, now - cfg_windowMs cfg < ts) l → trimWindow cfg now l = l.
Proof.
  unfold trimWindow. induction 1 as [|ts l Hts _ IH]; [done|].
  rewrite filter_cons_True by done. by rewrite IH.
Qed.

Lemma trimWindow_none now l :
  Forall (λ ts, ts ≤ now - cfg_windowMs cfg) l → trimWindow cfg now l = [].
Proof.
  unfold trimWindow. induction 1 as [|ts l Hts _ IH]; [done|].
  rewrite filter_cons_False by lia. done.
Qed.

(** Trimming at a later moment subsumes trimming at an earlier one. *)
Lemma trimWindow_later now now' l :
  now ≤ now' → trimWindow cfg now' (trimWindow cfg now l) = trimWindow cfg now' l.
Proof.
  intros Hle. unfold trimWindow. induction l as [|ts l IH]; [done|].
  destruct (decide (now' - cfg_windowMs cfg < ts)) as [Hin|Hout].
  - rewrite (filter_cons_True (λ ts, now - _ < ts)) by lia.
    rewrite !(filter_cons_True (λ ts, now' - _ < ts)) by done.
    by rewrite IH.
  - rewrite (filter_cons_False (λ ts, now' - _ < ts) ts l) by done.
    destruct (decide (now - cfg_windowMs cfg < ts)).
    + rewrite (filter_cons_True (λ ts, now - _ < ts)) by done.
      by rewrite filter_cons_False.
    + by rewrite (filter_cons_False (λ ts, now - _ < ts)).
Qed.

End Trim.

(** [isActiveBlock], read back: a block is set, is not the falsy [0], and
    lies ahead. *)
Lemma isActiveBlock_true now st :
  isActiveBlock now st = true ↔
  ∃ b, blockedUntil st = Some b ∧ b ≠ 0 ∧ now < b.
Proof.
  unfold isActiveBlock, truthy. destruct (blockedUntil st) as [b|]; simpl.
  - rewrite andb_true_iff, negb_true_iff, Z.eqb_neq, Z.ltb_lt.
    split; [intros []; eauto | intros (? & [= <-] & ? & ?); done].
  - split; [done | intros (? & ? & _); done].
Qed.

Lemma check_state_path cfg now st :
  CheckPath cfg now st (check_state cfg now st).1 (check_state cfg now st).2.
Proof.
  unfold check_state.
  destruct (isActiveBlock now st) eqn:Hblk.
  - apply isActiveBlock_true in Hblk as (b & Hb & Hnz & Hlt).
    rewrite Hb. simpl. by apply path_blocked.
  - simpl.
    destruct (cfg_maxRequests cfg <=? _) eqn:Hfull; simpl.
    + apply path_full; [done | lia].
    + apply path_admit; [done | lia].
Qed.

(** [check] touches the map at [clientId] only, and never the policy. *)
Lemma check_config now clientId rl : config (check now clientId rl).2 = config rl.
Proof. unfold check. by destruct (check_state _ _ _). Qed.

Lemma check_result now clientId rl :
  (check now clientId rl).1
  = (check_state (config rl) now (stateOf rl clientId)).1.
Proof. unfold check. by destruct (check_state _ _ _). Qed.

Lemma check_lookup now clientId rl :
  clients (check now clientId rl).2 !! clientId
  = Some (check_state (config rl) now (stateOf rl clientId)).2.
Proof.
  unfold check. destruct (check_state _ _ _). simpl. apply lookup_insert_eq.
Qed.

Lemma check_lookup_ne now clientId other rl :
  clientId ≠ other →
  clients (check now clientId rl).2 !! other = clients rl !! other.
Proof.
  intros Hne. unfold check. destruct (check_state _ _ _). simpl.
  by apply lookup_insert_ne.
Qed.

(* ===================================================================== *)
(** * The blocked path and degenerate policies                            *)
(* ===================================================================== *)

(** C7.  A client whose [blockedUntil] is set and strictly ahead of the
    current moment is denied with [remaining = 0],
    [resetMs = blockedUntil - now] and [blocked = true], and the limiter,
    hence that client's timestamps and [blockedUntil], is left exactly as
    it was.  Moments are [Date.now()] readings, so [0 ≤ now]. *)
Theorem check_while_blocked now clientId rl st b :
  0 ≤ now →
  clients rl !! clientId = Some st →
  blockedUntil st = Some b →
  now < b →
  check now clientId rl
  = ({| allowed := false; remaining := 0; resetMs := b - now;
        blocked := Some true |}, rl).
Proof.
  intros Hnow Hst Hb Hlt.
  assert (Hblk : isActiveBlock now st = true).
  { apply isActiveBlock_true. exists b. repeat split; [done | lia | done]. }
  unfold check, stateOf. rewrite Hst. simpl.
  unfold check_state. rewrite Hblk, Hb. simpl.
  destruct rl as [c m]. simpl in *. f_equal. f_equal.
  by apply insert_id.
Qed.

Lemma check_while_blocked_witness :
  let rl := {| config := mkResolvedConfig 1 50 100;
               clients := {[ "c" := {| requests := [0];
                                       blockedUntil := Some 110 |} ]} |} in
  check 105 "c" rl
  = ({| allowed := false; remaining := 0; resetMs := 5;
        blocked := Some true |}, rl).
Proof.
  intros rl.
  apply (check_while_blocked 105 "c" rl
           {| requests := [0]; blockedUntil := Some 110 |} 110);
    [lia | reflexivity | reflexivity | lia].
Defined.

(** C9.  Under a policy whose [maxRequests] is [0], [check] denies every
    client at every moment, whatever the limiter has tracked so far; being
    a total function into results, it has no way to signal an error. *)
Theorem check_maxRequests_zero window blockDuration tracked now clientId :
  let rl := {| config := mkResolvedConfig 0 window blockDuration;
               clients := tracked |} in
  allowed (check now clientId rl).1 = false
  ∧ remaining (check now clientId rl).1 = 0.
Proof.
  intros rl. rewrite check_result.
  destruct (check_state_path (config rl) now (stateOf rl clientId))
    as [b _ _ _ | _ _ | _ Hlt]; [done | done |].
  simpl in Hlt. lia.
Qed.

(* ===================================================================== *)
(** * Scenarios                                                           *)
(* ===================================================================== *)

(** C3, as stated, fails: after an admission at 0 and a denial at 10, the
    block set by the denial runs until 110, and a call at 105 is denied. *)
Lemma scenario_block_call_at_105_denied :
  allowed
    (nth 2 (run (new_RateLimiter blockingPolicy) [(0, "c"); (10, "c"); (105, "c")]).1
       {| allowed := true; remaining := 0; resetMs := 0; blocked := None |})
  ≠ true.
Proof. vm_compute. discriminate. Qed.

(** C3, amended.  Under the policy above and for a fresh client: the call
    at 0 is admitted; the call at 10 is denied with [blocked = true] and
    [resetMs = 100]; the block runs until 110, so the call at 105 is
    denied with [blocked = true] and [resetMs = 5]; the call at 110 is
    admitted, against a window holding nothing but itself. *)
Theorem scenario_block_expiry :
  let '(results, rl) :=
    run (new_RateLimiter blockingPolicy)
      [(0, "c"); (10, "c"); (105, "c"); (110, "c")] in
  results
  = [ {| allowed := true; remaining := 0; resetMs := 50; blocked := None |};
      {| allowed := false; remaining := 0; resetMs := 100; blocked := Some true |};
      {| allowed := false; remaining := 0; resetMs := 5; blocked := Some true |};
      {| allowed := true; remaining := 0; resetMs := 50; blocked := None |} ]
  ∧ clients rl !! "c" = Some {| requests := [110]; blockedUntil := None |}.
Proof. vm_compute. done. Qed.

(* ===================================================================== *)
(** * The result of an admission                                          *)
(* ===================================================================== *)

(** C2, as stated, fails: a first call of a fresh client is admitted with
    nothing in its sequence before the append, and [resetMs] is the window
    duration, not [0]. *)
Lemma admit_on_empty_resetMs_not_zero :
  let rl := new_RateLimiter {| maxRequests := 1; windowMs := 50;
                               blockDurationMs := None |} in
  allowed (check 0 "c" rl).1 = true
  ∧ trimWindow (config rl) 0 (requests (expireBlock (stateOf rl "c"))) = []
  ∧ resetMs (check 0 "c" rl).1 ≠ 0.
Proof. vm_compute. repeat split; discriminate. Qed.

(** C2, amended.  When [check] admits under a positive window, the
    sequence afterwards is the sequence as it stood after block-expiry
    clearing and trimming, with [now] appended; [resetMs] is [windowMs]
    when that sequence was empty, and
    [(its first, oldest, timestamp + windowMs) - now] otherwise. *)
Theorem check_admit_resetMs now clientId rl :
  0 < cfg_windowMs (config rl) →
  allowed (check now clientId rl).1 = true →
  let before :=
    trimWindow (config rl) now (requests (expireBlock (stateOf rl clientId))) in
  (∃ st', clients (check now clientId rl).2 !! clientId = Some st'
          ∧ requests st' = before ++ [now])
  ∧ resetMs (check now clientId rl).1
    = match before with
      | [] => cfg_windowMs (config rl)
      | oldest :: _ => oldest + cfg_windowMs (config rl) - now
      end.
Proof.
  intros HW Hadm before. rewrite check_result in *. rewrite check_lookup.
  destruct (check_state_path (config rl) now (stateOf rl clientId))
    as [b _ _ _ | _ _ | _ _]; [done | done |].
  fold before. split; [eauto|]. simpl.
  pose proof (trimWindow_Forall (config rl) now
                (requests (expireBlock (stateOf rl clientId)))) as Hall.
  fold before in Hall.
  destruct before as [|oldest rest]; simpl; [lia|].
  apply Forall_cons in Hall as [Hold _]. lia.
Qed.

Lemma check_admit_resetMs_witness :
  let rl := {| config := mkResolvedConfig 3 1000 0;
               clients := {[ "c" := {| requests := [100; 400];
                                       blockedUntil := None |} ]} |} in
  (∃ st', clients (check 500 "c" rl).2 !! "c" = Some st'
          ∧ requests st' = [100; 400] ++ [500])
  ∧ resetMs (check 500 "c" rl).1 = 100 + 1000 - 500.
Proof.
  intros rl.
  apply (check_admit_resetMs 500 "c" rl); [simpl; lia | reflexivity].
Defined.

(* ===================================================================== *)
(** * What the timestamp sequence holds after an operation                *)
(* ===================================================================== *)

(** C5, as stated, fails for [consume]: after an admission at 0, a
    [consume] at 100 leaves the timestamp 0 in the sequence, although
    [0 ≤ 100 - 50]. *)
Lemma consume_keeps_stale_timestamp :
  let rl := consume 100 "c" (check 0 "c" shortWindow).2 in
  ∃ st, clients rl !! "c" = Some st
        ∧ ¬ Forall (λ ts, 100 - cfg_windowMs (config rl) < ts) (requests st).
Proof.
  eexists. split; [vm_compute; reflexivity|].
  intros Hall. apply Forall_cons in Hall as [Hstale _]. vm_compute in Hstale.
  discriminate.
Qed.

(** C5, amended.  Under a positive window: after a [check] that an active
    block does not cut short (whether it admits or denies), the client's
    sequence holds no timestamp older than or equal to [now - windowMs];
    after [cleanup], the same holds of every client still tracked;
    [consume] appends [now] to the sequence of a tracked client and leaves
    what was there as it was. *)
Theorem sequence_after_operation now rl :
  0 < cfg_windowMs (config rl) →
  (∀ clientId,
     isActiveBlock now (stateOf rl clientId) = false →
     ∃ st', clients (check now clientId rl).2 !! clientId = Some st'
            ∧ Forall (λ ts, now - cfg_windowMs (config rl) < ts) (requests st'))
  ∧ (∀ clientId st',
       clients (cleanup now rl) !! clientId = Some st' →
       Forall (λ ts, now - cfg_windowMs (config rl) < ts) (requests st'))
  ∧ (∀ clientId st,
       clients rl !! clientId = Some st →
       ∃ st', clients (consume now clientId rl) !! clientId = Some st'
              ∧ requests st' = requests st ++ [now]).
Proof.
  intros HW. split; [|split].
  - intros clientId Hfree. rewrite check_lookup. eexists. split; [done|].
    destruct (check_state_path (config rl) now (stateOf rl clientId))
      as [b Hb Hnz Hlt | _ _ | _ _]; simpl.
    + assert (isActiveBlock now (stateOf rl clientId) = true); [|congruence].
      apply isActiveBlock_true. eauto.
    + apply trimWindow_Forall.
    + apply Forall_app. split; [apply trimWindow_Forall|].
      apply Forall_singleton. lia.
  - intros clientId st'. unfold cleanup. simpl. rewrite lookup_omap.
    destruct (clients rl !! clientId) as [st|]; [|done]. simpl.
    unfold cleanup_entry. case_match; [done|]. intros [= <-]. simpl.
    apply trimWindow_Forall.
  - intros clientId st Hst. unfold consume. rewrite Hst. simpl.
    rewrite lookup_insert_eq. eauto.
Qed.

Lemma sequence_after_operation_witness :
  let rl := {| config := mkResolvedConfig 5 50 0;
               clients := {[ "c" := {| requests := [0; 60];
                                       blockedUntil := None |} ]} |} in
  (∀ clientId,
     isActiveBlock 100 (stateOf rl clientId) = false →
     ∃ st', clients (check 100 clientId rl).2 !! clientId = Some st'
            ∧ Forall (λ ts, 100 - 50 < ts) (requests st'))
  ∧ (∀ clientId st',
       clients (cleanup 100 rl) !! clientId = Some st' →
       Forall (λ ts, 100 - 50 < ts) (requests st'))
  ∧ (∀ clientId st,
       clients rl !! clientId = Some st →
       ∃ st', clients (consume 100 clientId rl) !! clientId = Some st'
              ∧ requests st' = requests st ++ [100]).
Proof.
  intros rl. apply (sequence_after_operation 100 rl). simpl. lia.
Defined.

(* ===================================================================== *)
(** * The sweep                                                           *)
(* ===================================================================== *)

Lemma trimWindow_nil_iff cfg now l :
  trimWindow cfg now l = [] ↔ ¬ ∃ ts, ts ∈ l ∧ now - cfg_windowMs cfg < ts.
Proof.
  split.
  - intros Hnil (ts & Hin & Hts).
    assert (ts ∈ trimWindow cfg now l) as Habs by by apply elem_of_trimWindow.
    rewrite Hnil in Habs. by apply not_elem_of_nil in Habs.
  - intros Hnone. apply trimWindow_none, Forall_forall. intros ts Hin.
    destruct (decide (ts ≤ now - cfg_windowMs cfg)); [done|].
    exfalso. apply Hnone. exists ts. split; [done | lia].
Qed.

(** C8.  One [cleanup] at [now] drops the entry of a tracked client exactly
    when, at that moment, none of its timestamps lies in the window
    (now - windowMs, now] and its [blockedUntil] is not strictly ahead;
    every other tracked entry is still there.  Moments are [Date.now()]
    readings ([0 ≤ now]) and the clock has not run backwards (no recorded
    timestamp is ahead of [now]). *)
Theorem cleanup_removes_iff now rl clientId st :
  0 ≤ now →
  clients rl !! clientId = Some st →
  Forall (λ ts, ts ≤ now) (requests st) →
  clients (cleanup now rl) !! clientId = None
  ↔ (¬ ∃ ts, ts ∈ requests st ∧ inWindow (config rl) now ts)
    ∧ (¬ ∃ b, blockedUntil st = Some b ∧ now < b).
Proof.
  intros Hnow Hst Hpast. unfold cleanup. simpl. rewrite lookup_omap, Hst. simpl.
  assert (Hwin : trimWindow (config rl) now (requests st) = []
                 ↔ ¬ ∃ ts, ts ∈ requests st ∧ inWindow (config rl) now ts).
  { rewrite trimWindow_nil_iff. unfold inWindow. split.
    - intros Hnone (ts & Hin & Hlo & _). apply Hnone. eauto.
    - intros Hnone (ts & Hin & Hlo). apply Hnone. exists ts.
      repeat split; [done | done |]. by eapply Forall_forall in Hpast. }
  rewrite <- Hwin. unfold cleanup_entry.
  rewrite <- length_zero_iff_nil.
  destruct (blockedUntil st) as [b|] eqn:Hb; simpl.
  - destruct (decide (b = 0)) as [->|Hnz]; simpl.
    + case_bool_decide; simpl; split; try done.
      * intros _. split; [done|]. intros (b' & [= <-] & Hlt). lia.
      * by intros [? _].
    + assert ((b =? 0) = false) as -> by by apply Z.eqb_neq. simpl.
      destruct (b <=? now) eqn:Hexp; simpl.
      * case_bool_decide; simpl; split; try done.
        -- intros _. split; [done|]. intros (b' & [= <-] & Hlt). lia.
        -- by intros [? _].
      * assert ((b =? 0) = false) as -> by by apply Z.eqb_neq. simpl.
        rewrite andb_false_r. split; [done|].
        intros [_ Hnone]. exfalso. apply Hnone. exists b. split; [done | lia].
  - case_bool_decide; simpl; split; try done.
    + intros _. split; [done|]. by intros (b' & [=] & _).
    + by intros [? _].
Qed.

Lemma cleanup_removes_iff_witness :
  let rl := {| config := mkResolvedConfig 5 50 0;
               clients := {[ "c" := {| requests := [0]; blockedUntil := None |} ]} |} in
  clients (cleanup 100 rl) !! "c" = None
  ↔ (¬ ∃ ts, ts ∈ [0] ∧ inWindow (config rl) 100 ts)
    ∧ (¬ ∃ b, @None Z = Some b ∧ 100 < b).
Proof.
  intros rl.
  apply (cleanup_removes_iff 100 rl "c" {| requests := [0]; blockedUntil := None |});
    [lia | reflexivity | repeat constructor; lia].
Defined.

(* ===================================================================== *)
(** * States reached by histories of [check]                              *)
(* ===================================================================== *)

Lemma StronglySorted_trimWindow cfg now l :
  StronglySorted Z.le l → StronglySorted Z.le (trimWindow cfg now l).
Proof.
  unfold trimWindow. induction 1 as [|ts l _ IH Hle]; [constructor|].
  destruct (decide (now - cfg_windowMs cfg < ts)).
  - rewrite filter_cons_True by done. constructor; [done|].
    apply Forall_forall. intros x Hx. apply list_elem_of_filter in Hx as [_ Hx].
    by eapply Forall_forall in Hle.
  - by rewrite filter_cons_False.
Qed.

Lemma StronglySorted_snoc_le l last now :
  StronglySorted Z.le l → Forall (λ ts, ts ≤ last) l → last ≤ now →
  StronglySorted Z.le (l ++ [now]).
Proof.
  intros Hs Hall Hle. induction Hs as [|ts l _ IH Hts]; simpl.
  - repeat constructor.
  - apply Forall_cons in Hall as [Hx Hall]. constructor; [by apply IH|].
    apply Forall_app. split; [done|]. apply Forall_singleton. lia.
Qed.

Lemma Forall_trimWindow (P : Z → Prop) cfg now l :
  Forall P l → Forall P (trimWindow cfg now l).
Proof.
  intros Hall. apply Forall_forall. intros x Hx.
  apply elem_of_trimWindow in Hx as [_ Hx]. by eapply Forall_forall in Hall.
Qed.

Lemma client_ok_fresh cfg last :
  0 ≤ cfg_maxRequests cfg →
  client_ok cfg last {| requests := []; blockedUntil := None |}.
Proof. intros. split; simpl; [constructor | constructor | lia | done]. Qed.

Lemma client_ok_later cfg last now st :
  last ≤ now → client_ok cfg last st → client_ok cfg now st.
Proof.
  intros Hle [Hs Hp Hq Hu]. split; try done.
  eapply Forall_impl; [exact Hp|]. simpl. intros. lia.
Qed.

Lemma client_ok_expireBlock cfg last st :
  0 ≤ cfg_maxRequests cfg →
  client_ok cfg last st → client_ok cfg last (expireBlock st).
Proof.
  intros Hmax Hok. unfold expireBlock.
  destruct (truthy (blockedUntil st)); [by apply client_ok_fresh | done].
Qed.

Lemma check_state_ok cfg last now st :
  0 ≤ cfg_maxRequests cfg →
  last ≤ now →
  client_ok cfg last st →
  client_ok cfg now (check_state cfg now st).2.
Proof.
  intros Hmax Hle Hok.
  pose proof (client_ok_expireBlock cfg last st Hmax Hok) as [Hs Hp Hq Hu].
  destruct (check_state_path cfg now st) as [b _ _ _ | _ Hfull | _ Hroom].
  - by eapply client_ok_later.
  - split; simpl.
    + by apply StronglySorted_trimWindow.
    + apply Forall_trimWindow. eapply Forall_impl; [exact Hp|]. simpl. intros. lia.
    + pose proof (length_filter (λ ts, now - cfg_windowMs cfg < ts)
                    (requests (expireBlock st))).
      unfold trimWindow. lia.
    + intros HB. assert ((0 <? cfg_blockDurationMs cfg) = false) as ->
        by by apply Z.ltb_ge.
      by apply Hu.
  - split; simpl.
    + eapply (StronglySorted_snoc_le _ last);
        [by apply StronglySorted_trimWindow | by apply Forall_trimWindow | done].
    + apply Forall_app. split; [|apply Forall_singleton; lia].
      apply Forall_trimWindow. eapply Forall_impl; [exact Hp|]. simpl. intros. lia.
    + rewrite length_app. simpl. lia.
    + done.
Qed.

Lemma stateOf_check now clientId rl :
  stateOf (check now clientId rl).2 clientId
  = (check_state (config rl) now (stateOf rl clientId)).2.
Proof. unfold stateOf at 1. by rewrite check_lookup. Qed.

Lemma stateOf_check_ne now clientId other rl :
  clientId ≠ other → stateOf (check now clientId rl).2 other = stateOf rl other.
Proof. intros Hne. unfold stateOf. by rewrite check_lookup_ne. Qed.

Lemma run_cons rl now clientId rest :
  run rl ((now, clientId) :: rest)
  = ((check now clientId rl).1 :: (run (check now clientId rl).2 rest).1,
     (run (check now clientId rl).2 rest).2).
Proof.
  simpl. destruct (check now clientId rl) as [r rl']. simpl.
  by destruct (run rl' rest).
Qed.

Lemma run_config rl calls : config (run rl calls).2 = config rl.
Proof.
  revert rl. induction calls as [|[now c] rest IH]; intros rl; [done|].
  rewrite run_cons. simpl. by rewrite IH, check_config.
Qed.

(** Every state a monotone history leads to is [client_ok]. *)
Lemma run_ok rl calls last final :
  0 ≤ cfg_maxRequests (config rl) →
  (∀ c, client_ok (config rl) last (stateOf rl c)) →
  Sorted Z.le (last :: (fst <$> calls)) →
  Forall (λ t, t ≤ final) (last :: (fst <$> calls)) →
  ∀ c, client_ok (config rl) final (stateOf (run rl calls).2 c).
Proof.
  intros Hmax. revert rl last Hmax.
  induction calls as [|[now c'] rest IH]; intros rl last Hmax Hok Hsort Hfin c.
  - simpl. apply Forall_cons in Hfin as [Hfin _]. by eapply client_ok_later.
  - rewrite run_cons. simpl.
    simpl in Hsort. apply Sorted_inv in Hsort as [Hsort Hhd].
    apply HdRel_inv in Hhd.
    apply Forall_cons in Hfin as [_ Hfin].
    rewrite <- (check_config now c' rl).
    apply (IH _ now); try done.
    + by rewrite check_config.
    + intros c0. rewrite check_config.
      destruct (decide (c' = c0)) as [->|Hne].
      * rewrite stateOf_check. by eapply check_state_ok.
      * rewrite stateOf_check_ne by done. by eapply client_ok_later.
Qed.

Lemma new_RateLimiter_ok policy last c :
  0 ≤ maxRequests policy →
  client_ok (config (new_RateLimiter policy)) last
    (stateOf (new_RateLimiter policy) c).
Proof. intros. unfold stateOf. simpl. rewrite lookup_empty. by apply client_ok_fresh. Qed.

(** A monotone history that ends with a call at [t0] has no call after [t0]. *)
Lemma monotone_snoc calls t0 c :
  monotone (calls ++ [(t0, c)]) →
  Sorted Z.le (fst <$> calls) ∧ Forall (λ t, t ≤ t0) (fst <$> calls).
Proof.
  unfold monotone. rewrite fmap_app. simpl. intros Hs.
  apply (Sorted_StronglySorted _) in Hs.
  apply StronglySorted_app in Hs as (Hle & Hs & _). split.
  - by apply StronglySorted_Sorted.
  - apply Forall_forall. intros t Ht. apply (Hle t t0 Ht).
    by apply list_elem_of_singleton.
Qed.

(** The states a monotone history from a fresh limiter leads to. *)
Lemma history_ok policy calls final c :
  0 ≤ maxRequests policy →
  Sorted Z.le (fst <$> calls) →
  Forall (λ t, t ≤ final) (fst <$> calls) →
  client_ok (config (new_RateLimiter policy)) final
    (stateOf (run (new_RateLimiter policy) calls).2 c).
Proof.
  intros Hmax Hs Hfin. destruct calls as [|[t1 c1] rest].
  - simpl. by apply new_RateLimiter_ok.
  - apply (run_ok _ _ t1); try done.
    + intros c0. by apply new_RateLimiter_ok.
    + simpl in *. constructor; [done|]. by constructor.
    + simpl in *. constructor; [|done]. by apply Forall_cons in Hfin as [? _].
Qed.

(** A full, unblocked sequence keeps denying, unchanged, as long as its
    oldest timestamp is in the window. *)
Lemma full_sequence_denied cfg t oldest rest :
  cfg_blockDurationMs cfg ≤ 0 →
  StronglySorted Z.le (oldest :: rest) →
  cfg_maxRequests cfg ≤ Z.of_nat (length (oldest :: rest)) →
  t < oldest + cfg_windowMs cfg →
  check_state cfg t {| requests := oldest :: rest; blockedUntil := None |}
  = ({| allowed := false; remaining := 0;
        resetMs := Z.max 0 (oldest + cfg_windowMs cfg - t);
        blocked := Some false |},
     {| requests := oldest :: rest; blockedUntil := None |}).
Proof.
  intros HB Hs Hfull Hlt.
  assert (Hid : trimWindow cfg t (oldest :: rest) = oldest :: rest).
  { apply trimWindow_id. apply StronglySorted_inv in Hs as [_ Hle].
    constructor; [lia|]. eapply Forall_impl; [exact Hle|]. simpl. intros. lia. }
  unfold check_state, isActiveBlock, expireBlock.
  cbn [blockedUntil requests truthy andb]. rewrite Hid.
  assert ((0 <? cfg_blockDurationMs cfg) = false) as -> by by apply Z.ltb_ge.
  destruct (cfg_maxRequests cfg <=? _) eqn:Hcmp; [done|].
  apply Z.leb_gt in Hcmp. lia.
Qed.

(* ===================================================================== *)
(** * The window is half-open                                             *)
(* ===================================================================== *)

(** C6.  The trim keeps the timestamps of (now - windowMs, now]: one equal
    to [now - windowMs] is dropped.  So, under a policy without block
    duration, when a monotone history from a fresh limiter ends in a
    denial at [t0], the client's sequence has an oldest timestamp, every
    later call before [oldest + windowMs] is denied again and changes
    nothing, and the call made at [oldest + windowMs] is admitted. *)
Theorem window_full_readmitted_exactly policy calls t0 c :
  default 0 (blockDurationMs policy) ≤ 0 →
  0 < windowMs policy →
  0 < maxRequests policy →
  monotone (calls ++ [(t0, c)]) →
  let rl0 := (run (new_RateLimiter policy) calls).2 in
  let rl1 := (check t0 c rl0).2 in
  allowed (check t0 c rl0).1 = false →
  (∀ now l, now - windowMs policy ∉ trimWindow (config rl0) now l)
  ∧ ∃ st oldest,
      clients rl1 !! c = Some st
      ∧ head (requests st) = Some oldest
      ∧ (∀ t, t0 ≤ t → t < oldest + windowMs policy →
              allowed (check t c rl1).1 = false ∧ (check t c rl1).2 = rl1)
      ∧ allowed (check (oldest + windowMs policy) c rl1).1 = true.
Proof.
  intros HB HW Hmax Hmono rl0 rl1 Hdenied.
  assert (Hcfg : config rl0 = config (new_RateLimiter policy))
    by apply run_config.
  split.
  { intros now l Hin. apply elem_of_trimWindow in Hin as [Hlt _].
    rewrite Hcfg in Hlt. simpl in Hlt. lia. }
  apply monotone_snoc in Hmono as [Hsort Hpast].
  pose proof (history_ok policy calls t0 c ltac:(lia) Hsort Hpast) as Hok.
  fold rl0 in Hok. rewrite <- Hcfg in Hok.
  assert (HB' : cfg_blockDurationMs (config rl0) ≤ 0) by by rewrite Hcfg.
  assert (HW' : cfg_windowMs (config rl0) = windowMs policy) by by rewrite Hcfg.
  assert (Hmax' : cfg_maxRequests (config rl0) = maxRequests policy) by by rewrite Hcfg.
  destruct Hok as [Hs Hp Hq Hu]. specialize (Hu HB').
  assert (Hexp : expireBlock (stateOf rl0 c) = stateOf rl0 c).
  { unfold expireBlock. by rewrite Hu. }
  (* the state the denial leaves *)
  assert (Hst1 : clients rl1 !! c
                 = Some {| requests := trimWindow (config rl0) t0 (requests (stateOf rl0 c));
                           blockedUntil := None |}
                 ∧ cfg_maxRequests (config rl0)
                   ≤ Z.of_nat (length (trimWindow (config rl0) t0
                                         (requests (stateOf rl0 c))))).
  { unfold rl1. rewrite check_lookup. rewrite check_result in Hdenied.
    destruct (check_state_path (config rl0) t0 (stateOf rl0 c))
      as [b Hb _ _ | _ Hfull | _ _]; [congruence | | done].
    rewrite Hexp in *. rewrite Hu.
    assert ((0 <? cfg_blockDurationMs (config rl0)) = false) as ->
      by by apply Z.ltb_ge.
    done. }
  destruct Hst1 as [Hst1 Hfull].
  set (L := trimWindow (config rl0) t0 (requests (stateOf rl0 c))) in *.
  assert (HsL : StronglySorted Z.le L) by by apply StronglySorted_trimWindow.
  assert (HlenL : Z.of_nat (length L) = cfg_maxRequests (config rl0)).
  { pose proof (length_filter (λ ts, t0 - cfg_windowMs (config rl0) < ts)
                  (requests (stateOf rl0 c))) as Hlen.
    fold (trimWindow (config rl0) t0 (requests (stateOf rl0 c))) in Hlen.
    fold L in Hlen. lia. }
  destruct L as [|oldest rest] eqn:HL; [simpl in HlenL; lia|].
  assert (Hcfg1 : config rl1 = config rl0) by apply check_config.
  assert (Hstate1 : stateOf rl1 c
                    = {| requests := oldest :: rest; blockedUntil := None |}).
  { unfold stateOf. by rewrite Hst1. }
  eexists _, oldest. split; [exact Hst1|]. split; [done|]. split.
  - intros t Ht0 Hlt.
    pose proof (full_sequence_denied (config rl0) t oldest rest HB' HsL
                  ltac:(lia) ltac:(lia)) as Hchk.
    unfold check. rewrite Hcfg1, Hstate1, Hchk. simpl. split; [done|].
    destruct rl1 as [cfg1 m1]. simpl in *. subst cfg1. f_equal.
    by apply insert_id.
  - rewrite check_result, Hcfg1, Hstate1.
    destruct (check_state_path (config rl0) (oldest + windowMs policy)
                {| requests := oldest :: rest; blockedUntil := None |})
      as [b Hb _ _ | _ Hfull' | _ _]; [done | | done].
    exfalso. unfold expireBlock in Hfull'. simpl in Hfull'.
    assert (length (trimWindow (config rl0) (oldest + windowMs policy) (oldest :: rest))
            < length (oldest :: rest))%nat; [|lia].
    unfold trimWindow. apply (length_filter_lt _ _ oldest); [by left | lia].
Qed.

Lemma window_full_readmitted_exactly_witness :
  let policy := {| maxRequests := 2; windowMs := 100; blockDurationMs := None |} in
  let rl0 := (run (new_RateLimiter policy) [(0, "c"); (10, "c")]).2 in
  let rl1 := (check 20 "c" rl0).2 in
  (∀ now l, now - 100 ∉ trimWindow (config rl0) now l)
  ∧ ∃ st oldest,
      clients rl1 !! "c" = Some st
      ∧ head (requests st) = Some oldest
      ∧ (∀ t, 20 ≤ t → t < oldest + 100 →
              allowed (check t "c" rl1).1 = false ∧ (check t "c" rl1).2 = rl1)
      ∧ allowed (check (oldest + 100) "c" rl1).1 = true.
Proof.
  intros policy rl0 rl1.
  apply (window_full_readmitted_exactly policy [(0, "c"); (10, "c")] 20 "c").
  - simpl. lia.
  - simpl. lia.
  - simpl. lia.
  - unfold monotone. simpl. repeat first [lia | constructor].
  - reflexivity.
Defined.

(* ===================================================================== *)
(** * The quota per trailing window                                       *)
(* ===================================================================== *)

(** C1, as stated, fails: when the block is shorter than the window, the
    clearing at block expiry forgets admissions that are still inside the
    window.  Four calls are admitted in the window ending at 13, against a
    quota of two. *)
Lemma quota_exceeded_after_short_block :
  monotone shortBlockHistory
  ∧ admitted "c" (new_RateLimiter shortBlockPolicy) shortBlockHistory = [0; 1; 12; 13]
  ∧ ¬ (Z.of_nat (admittedInWindow "c" (new_RateLimiter shortBlockPolicy)
                   shortBlockHistory 13)
       ≤ maxRequests shortBlockPolicy).
Proof.
  split; [|split].
  - unfold monotone. simpl. repeat first [lia | constructor].
  - vm_compute. reflexivity.
  - vm_compute. intros H. by apply H.
Qed.

Lemma filter_length_impl (P Q : Z → Prop)
    `{∀ x, Decision (P x)} `{∀ x, Decision (Q x)} (l : list Z) :
  (∀ x, x ∈ l → P x → Q x) →
  (length (filter P l) ≤ length (filter Q l))%nat.
Proof.
  induction l as [|x l IH]; intros Himp; [done|].
  assert (length (filter P l) ≤ length (filter Q l))%nat as IH'.
  { apply IH. intros y Hy. apply Himp. by right. }
  destruct (decide (P x)) as [HP|HP].
  - rewrite (filter_cons_True P) by done.
    rewrite (filter_cons_True Q) by (apply Himp; [by left | done]).
    simpl. lia.
  - rewrite (filter_cons_False P) by done.
    destruct (decide (Q x)).
    + rewrite (filter_cons_True Q) by done. simpl. lia.
    + by rewrite (filter_cons_False Q).
Qed.

Section Quota.

Variable cfg : ResolvedConfig.
Hypothesis quota_nonnegative : 0 ≤ cfg_maxRequests cfg.
Hypothesis block_covers_window :
  cfg_blockDurationMs cfg ≤ 0 ∨ cfg_windowMs cfg ≤ cfg_blockDurationMs cfg.

Lemma history_inv_fresh last :
  history_inv cfg last [] {| requests := []; blockedUntil := None |}.
Proof. split; simpl; try done. Qed.

Lemma history_inv_later last now A st :
  last ≤ now → history_inv cfg last A st → history_inv cfg now A st.
Proof.
  intros Hle [Hp Hw Hb Hq]. split; try done.
  - eapply Forall_impl; [exact Hp|]. simpl. intros. lia.
  - rewrite <- (trimWindow_later cfg last now (requests st)) by done.
    rewrite Hw. by apply trimWindow_later.
Qed.

(** After the block-expiry step the sequence still agrees with the
    admissions inside the window, and no block is in force. *)
Lemma expireBlock_window now A st :
  history_inv cfg now A st →
  isActiveBlock now st = false →
  trimWindow cfg now (requests (expireBlock st)) = trimWindow cfg now A
  ∧ ∀ b, blockedUntil (expireBlock st) = Some b → b = 0.
Proof.
  intros [Hp Hw Hb Hq] Hfree. unfold expireBlock.
  destruct (truthy (blockedUntil st)) eqn:Htr; simpl.
  - split; [|done]. unfold isActiveBlock in Hfree. rewrite Htr in Hfree.
    destruct (blockedUntil st) as [b|] eqn:Hbu; [|done]. simpl in *.
    apply negb_true_iff, Z.eqb_neq in Htr. apply Z.ltb_ge in Hfree.
    symmetry. apply trimWindow_none.
    eapply Forall_impl; [exact (Hb b eq_refl Htr)|]. simpl. intros. lia.
  - split; [done|]. intros b Hbu. rewrite Hbu in Htr. simpl in Htr.
    by apply negb_false_iff, Z.eqb_eq in Htr.
Qed.

(** One [check] of the client keeps the relation, with the moment added
    to the admissions when the call is admitted. *)
Lemma check_state_history_inv last now A st :
  last ≤ now →
  history_inv cfg last A st →
  history_inv cfg now
    (A ++ if allowed (check_state cfg now st).1 then [now] else [])
    (check_state cfg now st).2.
Proof.
  intros Hle Hinv. apply (history_inv_later last now) in Hinv; [|done].
  destruct (check_state_path cfg now st) as [b _ _ _ | Hfree Hfull | Hfree Hroom];
    simpl.
  - by rewrite app_nil_r.
  - rewrite app_nil_r.
    destruct (expireBlock_window now A st Hinv Hfree) as [Hwin Hnb].
    destruct Hinv as [Hp Hw Hb Hq]. split; simpl; try done.
    + by rewrite trimWindow_later.
    + intros b Hbu Hnz. destruct (0 <? cfg_blockDurationMs cfg) eqn:HB.
      * apply Z.ltb_lt in HB. injection Hbu as <-.
        eapply Forall_impl; [exact Hp|]. simpl. intros. lia.
      * by apply Hnb in Hbu.
  - destruct (expireBlock_window now A st Hinv Hfree) as [Hwin Hnb].
    destruct Hinv as [Hp Hw Hb Hq]. split; simpl.
    + apply Forall_app. split; [done | by apply Forall_singleton].
    + rewrite !trimWindow_app, trimWindow_later by done. by rewrite Hwin.
    + intros b Hbu Hnz. by apply Hnb in Hbu.
    + intros T. rewrite filter_app, length_app.
      destruct (decide (now ≤ T)) as [HT|HT].
      * assert (length (filter (inWindow cfg T) A)
                ≤ length (trimWindow cfg now A))%nat as Hlen.
        { apply filter_length_impl. unfold inWindow. intros. lia. }
        rewrite <- Hwin in Hlen.
        pose proof (length_filter (inWindow cfg T) [now]) as Hone.
        simpl in Hone. lia.
      * rewrite (filter_cons_False (inWindow cfg T) now [])
          by (unfold inWindow; lia).
        simpl. specialize (Hq T). lia.
Qed.

End Quota.

Lemma admitted_cons clientId rl now c rest :
  admitted clientId rl ((now, c) :: rest)
  = (if bool_decide (c = clientId) && allowed (check now c rl).1
     then [now] else [])
    ++ admitted clientId (check now c rl).2 rest.
Proof.
  unfold admitted. rewrite run_cons. simpl.
  destruct (decide (c = clientId)) as [->|Hne].
  - rewrite bool_decide_eq_true_2 by done. simpl.
    destruct (allowed (check now clientId rl).1) eqn:Hal.
    + by rewrite filter_cons_True.
    + rewrite filter_cons_False; [done|]. simpl. rewrite Hal. by intros [_ ?].
  - rewrite bool_decide_eq_false_2 by done. simpl.
    rewrite filter_cons_False; [done|]. simpl. by intros [? _].
Qed.

(** Over a monotone history the relation is kept from call to call, so the
    admissions gathered so far, followed by those of the rest of the
    history, never exceed the quota in a trailing window. *)
Lemma admitted_quota clientId rl calls last A T :
  0 ≤ cfg_maxRequests (config rl) →
  cfg_blockDurationMs (config rl) ≤ 0
    ∨ cfg_windowMs (config rl) ≤ cfg_blockDurationMs (config rl) →
  history_inv (config rl) last A (stateOf rl clientId) →
  Sorted Z.le (last :: (fst <$> calls)) →
  Z.of_nat (length (filter (inWindow (config rl) T)
                      (A ++ admitted clientId rl calls)))
  ≤ cfg_maxRequests (config rl).
Proof.
  intros Hmax HB. revert rl last A Hmax HB.
  induction calls as [|[now c] rest IH]; intros rl last A Hmax HB Hinv Hsort.
  - simpl. rewrite app_nil_r. by destruct Hinv.
  - simpl in Hsort. apply Sorted_inv in Hsort as [Hsort Hhd].
    apply HdRel_inv in Hhd.
    rewrite admitted_cons, app_assoc.
    rewrite <- (check_config now c rl).
    apply (IH _ now); rewrite ?check_config; try done.
    destruct (decide (c = clientId)) as [->|Hne].
    + rewrite bool_decide_eq_true_2 by done. simpl.
      rewrite stateOf_check, check_result.
      by eapply check_state_history_inv.
    + rewrite bool_decide_eq_false_2 by done. simpl.
      rewrite app_nil_r, stateOf_check_ne by done.
      by eapply history_inv_later.
Qed.

(** C1, amended.  Under a policy with positive [maxRequests] and
    [windowMs] whose block duration is absent, zero, or at least the
    window, and over any history of [check] calls in which the clock does
    not run backwards, the admissions of a client inside any trailing
    window (T - windowMs, T] never outnumber [maxRequests]: a block that
    expires has then outlasted every admission it makes the limiter
    forget. *)
Theorem quota_per_window policy calls clientId T :
  0 < maxRequests policy →
  0 < windowMs policy →
  default 0 (blockDurationMs policy) ≤ 0
    ∨ windowMs policy ≤ default 0 (blockDurationMs policy) →
  monotone calls →
  Z.of_nat (admittedInWindow clientId (new_RateLimiter policy) calls T)
  ≤ maxRequests policy.
Proof.
  intros Hmax HW HB Hmono. unfold admittedInWindow.
  change (maxRequests policy)
    with (cfg_maxRequests (config (new_RateLimiter policy))).
  change (admitted clientId (new_RateLimiter policy) calls)
    with ([] ++ admitted clientId (new_RateLimiter policy) calls).
  destruct calls as [|[t1 c1] rest] eqn:Hcalls.
  - simpl. lia.
  - rewrite <- Hcalls in *.
    apply (admitted_quota clientId _ calls t1 []); simpl; try lia; try done.
    + unfold stateOf. simpl. rewrite lookup_empty. simpl.
      apply history_inv_fresh. simpl. lia.
    + subst calls. simpl in *. constructor; [done|]. by constructor.
Qed.

Lemma quota_per_window_witness :
  Z.of_nat
    (admittedInWindow "c"
       (new_RateLimiter {| maxRequests := 2; windowMs := 10;
                           blockDurationMs := Some 10 |})
       [(0, "c"); (1, "c"); (2, "c"); (12, "c"); (13, "c")] 13)
  ≤ 2.
Proof.
  apply (quota_per_window
           {| maxRequests := 2; windowMs := 10; blockDurationMs := Some 10 |}
           [(0, "c"); (1, "c"); (2, "c"); (12, "c"); (13, "c")] "c" 13).
  - simpl. lia.
  - simpl. lia.
  - right. simpl. lia.
  - unfold monotone. simpl. repeat first [lia | constructor].
Defined.

(* ===================================================================== *)
(** * The gate                                                            *)
(* ===================================================================== *)

Section GateProperties.

Variable JSON_parse : string → option JSON.

(** Whatever the payload, [handleMessage] leaves the limiter as its one
    call of [check] left it, and the handler table and options as they
    were. *)
Lemma handleMessage_server now client rawMessage srv :
  (handleMessage JSON_parse now client rawMessage srv).2
  = {| rateLimiter :=
         (check now (getClientId (options srv) client) (rateLimiter srv)).2;
       handlers := handlers srv;
       options := options srv |}.
Proof.
  unfold handleMessage.
  destruct (check now _ (rateLimiter srv)) as [result rl]. simpl.
  destruct (negb (allowed result)); [done|].
  destruct (JSON_parse rawMessage) as [message|]; [|done].
  destruct (typeField message) as [e|ty]; [done|].
  destruct (validType ty) as [messageType|]; [|done].
  destruct (handlers srv !! messageType) as [handler|]; [|done].
  by destruct (runHandler _ _ _ _ _ _).
Qed.

(** Where the promise of [handleMessage] is fulfilled: always, except when
    the payload parses to [null], or when a handler throws a value that
    cannot be converted to a string for the log line. *)
Lemma handleMessage_resolves now client rawMessage srv :
  JSON_parse rawMessage ≠ Some JNull →
  (∀ messageType handler message,
     handlers srv !! messageType = Some handler →
     handler client message ≠ Failed (NonError None)) →
  (handleMessage JSON_parse now client rawMessage srv).1.1 = Resolved.
Proof.
  intros Hnull Hprintable. unfold handleMessage.
  destruct (check now _ (rateLimiter srv)) as [result rl]. simpl.
  destruct (negb (allowed result)); [done|].
  destruct (JSON_parse rawMessage) as [message|]; [|done].
  destruct message; try done; simpl.
  destruct (validType _) as [messageType|]; [|done].
  destruct (handlers srv !! messageType) as [handler|] eqn:Hh; [|done].
  specialize (Hprintable messageType handler (JObject fields) Hh).
  unfold runHandler.
  destruct (handler client (JObject fields)) as [sent|[msg|[text|]]]; done.
Qed.

(** C10.  When the admission check of [handleMessage] admits, the slot is
    consumed: afterwards the client's sequence is the trimmed sequence
    with the current moment appended.  This holds whatever becomes of the
    message, and in particular when it is answered with [INVALID_JSON]
    (it does not parse), with [MISSING_TYPE] (its [type] is not a
    non-empty string) or with [UNKNOWN_MESSAGE_TYPE] (no handler is
    registered for its type). *)
Theorem handleMessage_consumes_slot now client rawMessage srv :
  let clientId := getClientId (options srv) client in
  let rl := rateLimiter srv in
  let out := handleMessage JSON_parse now client rawMessage srv in
  allowed (check now clientId rl).1 = true →
  (∃ st', clients (rateLimiter out.2) !! clientId = Some st'
          ∧ requests st'
            = trimWindow (config rl) now (requests (expireBlock (stateOf rl clientId)))
              ++ [now])
  ∧ (JSON_parse rawMessage = None →
     out.1 = (Resolved,
              [SendError (id client)
                 (createErrorResponse INVALID_JSON
                    (includeSuggestions (options srv)) None)]))
  ∧ (∀ message ty,
       JSON_parse rawMessage = Some message →
       typeField message = inr ty →
       validType ty = None →
       out.1 = (Resolved,
                [SendError (id client)
                   (createErrorResponse MISSING_TYPE
                      (includeSuggestions (options srv)) None)]))
  ∧ (∀ message ty messageType,
       JSON_parse rawMessage = Some message →
       typeField message = inr ty →
       validType ty = Some messageType →
       handlers srv !! messageType = None →
       out.1 = (Resolved,
                [SendError (id client)
                   (createErrorResponse UNKNOWN_MESSAGE_TYPE
                      (includeSuggestions (options srv)) None)])).
Proof.
  intros clientId rl out Hadm. split.
  - unfold out. rewrite handleMessage_server. simpl. fold clientId rl.
    rewrite check_lookup. rewrite check_result in Hadm.
    destruct (check_state_path (config rl) now (stateOf rl clientId))
      as [b _ _ _ | _ _ | _ _]; [done | done |].
    eauto.
  - unfold out, handleMessage. fold clientId rl.
    destruct (check now clientId rl) as [result rl']. simpl in Hadm.
    rewrite Hadm. simpl. repeat split.
    + by intros ->.
    + by intros message ty -> -> ->.
    + intros message ty messageType -> -> ->. simpl. by intros ->.
Qed.

(** C4 at its failing input.  The payload ["null"] is JSON, so it passes
    the [try] around [JSON.parse]; the next statement reads
    [message.type] of [null] outside any [try], and the promise
    [handleMessage] returned is rejected with that [TypeError]. *)
Theorem handleMessage_null_payload_rejects now client srv :
  JSON_parse "null" = Some JNull →
  allowed (check now (getClientId (options srv) client) (rateLimiter srv)).1
  = true →
  (handleMessage JSON_parse now client "null" srv).1
  = (Rejected (TypeError "Cannot read properties of null (reading 'type')"), []).
Proof.
  intros Hparse Hadm. unfold handleMessage.
  destruct (check now _ (rateLimiter srv)) as [result rl']. simpl in Hadm.
  rewrite Hadm, Hparse. done.
Qed.

End GateProperties.

Lemma handleMessage_consumes_slot_witness :
  let out := handleMessage parseLiteral 5 {| id := "c1" |} "not json" standardServer in
  (∃ st', clients (rateLimiter out.2) !! "c1" = Some st'
          ∧ requests st' = [] ++ [5])
  ∧ (parseLiteral "not json" = None →
     out.1 = (Resolved,
              [SendError "c1" (createErrorResponse INVALID_JSON true None)]))
  ∧ (∀ message ty,
       parseLiteral "not json" = Some message →
       typeField message = inr ty →
       validType ty = None →
       out.1 = (Resolved,
                [SendError "c1" (createErrorResponse MISSING_TYPE true None)]))
  ∧ (∀ message ty messageType,
       parseLiteral "not json" = Some message →
       typeField message = inr ty →
       validType ty = Some messageType →
       handlers standardServer !! messageType = None →
       out.1 = (Resolved,
                [SendError "c1" (createErrorResponse UNKNOWN_MESSAGE_TYPE true None)])).
Proof.
  intros out.
  apply (handleMessage_consumes_slot parseLiteral 5 {| id := "c1" |}
           "not json" standardServer).
  reflexivity.
Defined.

Lemma handleMessage_null_payload_rejects_witness :
  (handleMessage parseLiteral 5 {| id := "c1" |} "null" standardServer).1
  = (Rejected (TypeError "Cannot read properties of null (reading 'type')"), []).
Proof.
  apply (handleMessage_null_payload_rejects parseLiteral 5 {| id := "c1" |}
           standardServer); reflexivity.
Defined.

(* ===================================================================== *)
(** * Further properties of the limiter                                   *)
(* ===================================================================== *)

(** What [check_state] answers depends on the state only through the
    block and through what the trim leaves of the sequence. *)
Lemma check_state_result_congr cfg now st st' :
  isActiveBlock now st = isActiveBlock now st' →
  (isActiveBlock now st = true → blockedUntil st = blockedUntil st') →
  trimWindow cfg now (requests (expireBlock st))
  = trimWindow cfg now (requests (expireBlock st')) →
  (check_state cfg now st).1 = (check_state cfg now st').1.
Proof.
  intros Hact Hbu Htrim. unfold check_state. rewrite <- Hact.
  destruct (isActiveBlock now st).
  - simpl. by rewrite Hbu.
  - simpl. rewrite <- Htrim. by destruct (cfg_maxRequests cfg <=? _).
Qed.

(** X1.  Whatever the limiter holds, the result of [check] has a
    non-negative [remaining] and a non-negative [resetMs]; a denial has
    [remaining = 0] and carries the [blocked] flag, an admission leaves
    the flag out. *)
Theorem check_result_shape now clientId rl :
  let r := (check now clientId rl).1 in
  0 ≤ remaining r
  ∧ 0 ≤ resetMs r
  ∧ (allowed r = false → remaining r = 0 ∧ is_Some (blocked r))
  ∧ (allowed r = true → blocked r = None).
Proof.
  intros r. unfold r. rewrite check_result.
  destruct (check_state_path (config rl) now (stateOf rl clientId))
    as [b _ _ Hlt | _ _ | _ Hroom]; simpl.
  - repeat split; eauto; try done; lia.
  - repeat split; eauto; try done.
    destruct (0 <? cfg_blockDurationMs (config rl)) eqn:HB; [|lia].
    apply Z.ltb_lt in HB. lia.
  - repeat split; try done; lia.
Qed.


(** X2.  Clients are limited independently: a [check], a [consume] or a
    [reset] of one client changes nothing in what a [check] of another
    client answers, at any moment. *)
Theorem other_client_unaffected now now' clientId other rl :
  clientId ≠ other →
  (check now' other (check now clientId rl).2).1 = (check now' other rl).1
  ∧ (check now' other (consume now clientId rl)).1 = (check now' other rl).1
  ∧ (check now' other (reset clientId rl)).1 = (check now' other rl).1.
Proof.
  intros Hne. rewrite !check_result. split; [|split].
  - by rewrite check_config, stateOf_check_ne.
  - unfold consume. destruct (clients rl !! clientId) as [st|]; [|done].
    unfold stateOf. simpl. by rewrite lookup_insert_ne.
  - unfold reset, stateOf. simpl. by rewrite lookup_delete_ne.
Qed.

Lemma other_client_unaffected_witness :
  let rl := (check 0 "a" (check 0 "b" shortWindow).2).2 in
  (check 7 "b" (check 5 "a" rl).2).1 = (check 7 "b" rl).1
  ∧ (check 7 "b" (consume 5 "a" rl)).1 = (check 7 "b" rl).1
  ∧ (check 7 "b" (reset "a" rl)).1 = (check 7 "b" rl).1.
Proof.
  intros rl. apply (other_client_unaffected 5 7 "a" "b" rl). discriminate.
Defined.

(** X3.  After [reset] the client is as if never seen: under a positive
    quota the next [check] admits, reports the full quota less the slot it
    takes, and starts the sequence anew, whatever was tracked or blocked
    before. *)
Theorem reset_then_check now clientId rl :
  0 < cfg_maxRequests (config rl) →
  (check now clientId (reset clientId rl)).1
  = {| allowed := true;
       remaining := cfg_maxRequests (config rl) - 1;
       resetMs := Z.max 0 (cfg_windowMs (config rl));
       blocked := None |}
  ∧ clients (check now clientId (reset clientId rl)).2 !! clientId
    = Some {| requests := [now]; blockedUntil := None |}.
Proof.
  intros Hmax. rewrite check_result, check_lookup.
  assert (Hfresh : stateOf (reset clientId rl) clientId
                   = {| requests := []; blockedUntil := None |}).
  { unfold stateOf, reset. simpl. by rewrite lookup_delete_eq. }
  rewrite Hfresh. unfold check_state. simpl. change (Z.of_nat 0) with 0.
  destruct (cfg_maxRequests (config rl) <=? 0) eqn:Hcmp.
  { apply Z.leb_le in Hcmp. lia. }
  simpl. split; [|done]. f_equal; [lia|]. f_equal. lia.
Qed.

Lemma reset_then_check_witness :
  let rl := {| config := mkResolvedConfig 1 1000 5000;
               clients := {[ "c" := {| requests := [10];
                                       blockedUntil := Some 5020 |} ]} |} in
  (check 30 "c" (reset "c" rl)).1
  = {| allowed := true; remaining := 1 - 1; resetMs := Z.max 0 1000;
       blocked := None |}
  ∧ clients (check 30 "c" (reset "c" rl)).2 !! "c"
    = Some {| requests := [30]; blockedUntil := None |}.
Proof.
  intros rl. apply (reset_then_check 30 "c" rl). simpl. lia.
Defined.

(** [check_state] on a state without block whose sequence lies in the
    window and leaves room. *)
Lemma check_state_admit_plain cfg now st :
  blockedUntil st = None →
  trimWindow cfg now (requests st) = requests st →
  Z.of_nat (length (requests st)) < cfg_maxRequests cfg →
  check_state cfg now st
  = ({| allowed := true;
        remaining := cfg_maxRequests cfg - Z.of_nat (length (requests st)) - 1;
        resetMs := Z.max 0 (default now (head (requests st)) + cfg_windowMs cfg - now);
        blocked := None |},
     {| requests := requests st ++ [now]; blockedUntil := None |}).
Proof.
  intros Hbu Htrim Hroom. unfold check_state, isActiveBlock, expireBlock.
  rewrite Hbu. cbn [truthy andb]. rewrite Htrim, Hbu.
  destruct (cfg_maxRequests cfg <=? _) eqn:Hcmp; [|done].
  apply Z.leb_le in Hcmp. lia.
Qed.

(** Calls of one client that all lie within one window of each other and
    of what the sequence holds, as long as there is room: every one is
    admitted and the sequence grows by the moments of the calls. *)
Lemma burst_run rl clientId pre ts :
  stateOf rl clientId = {| requests := pre; blockedUntil := None |} →
  (∀ t x, t ∈ ts → x ∈ pre ++ ts → t - cfg_windowMs (config rl) < x) →
  Z.of_nat (length pre + length ts) ≤ cfg_maxRequests (config rl) →
  let out := run rl ((λ t, (t, clientId)) <$> ts) in
  stateOf out.2 clientId = {| requests := pre ++ ts; blockedUntil := None |}
  ∧ length out.1 = length ts
  ∧ ∀ i r, out.1 !! i = Some r →
           allowed r = true
           ∧ remaining r
             = cfg_maxRequests (config rl) - Z.of_nat (length pre) - Z.of_nat i - 1.
Proof.
  revert rl pre. induction ts as [|t ts IH]; intros rl pre Hst Hwin Hlen out.
  - unfold out. simpl. rewrite app_nil_r. repeat split; try done.
  - unfold out. rewrite fmap_cons, run_cons. simpl.
    assert (Hchk : check_state (config rl) t (stateOf rl clientId)
                   = ({| allowed := true;
                         remaining := cfg_maxRequests (config rl)
                                      - Z.of_nat (length pre) - 1;
                         resetMs := Z.max 0 (default t (head pre)
                                             + cfg_windowMs (config rl) - t);
                         blocked := None |},
                      {| requests := pre ++ [t]; blockedUntil := None |})).
    { rewrite Hst. apply check_state_admit_plain; simpl; [done | | ].
      - apply trimWindow_id, Forall_forall. intros x Hx.
        apply (Hwin t x); [by left | apply elem_of_app; by left].
      - rewrite length_cons in Hlen. lia. }
    destruct (IH (check t clientId rl).2 (pre ++ [t])) as (Hfin & Hn & Hres).
    { by rewrite stateOf_check, Hchk. }
    { rewrite check_config. intros t' x Ht' Hx. apply (Hwin t' x); [by right|].
      by rewrite <- app_assoc in Hx. }
    { rewrite check_config, length_app. simpl in *. lia. }
    rewrite check_config in Hres.
    split; [by rewrite Hfin, <- app_assoc|]. split; [by rewrite Hn|].
    intros [|i] r Hr; simpl in Hr.
    + injection Hr as <-. rewrite check_result, Hchk. simpl. split; [done | lia].
    + destruct (Hres i r Hr) as [Hal Hrem]. split; [done|].
      rewrite Hrem, length_app. simpl. lia.
Qed.

Lemma stateOf_new policy clientId :
  stateOf (new_RateLimiter policy) clientId
  = {| requests := []; blockedUntil := None |}.
Proof. unfold stateOf. simpl. by rewrite lookup_empty. Qed.

(** X4.  From a fresh limiter, calls of one client that are no more than
    [maxRequests] in number and lie pairwise less than a window apart are
    all admitted, the i-th (from 0) with [remaining = maxRequests - i - 1],
    and the sequence ends up holding exactly their moments. *)
Theorem burst_within_quota policy clientId ts :
  (∀ t x, t ∈ ts → x ∈ ts → t - windowMs policy < x) →
  Z.of_nat (length ts) ≤ maxRequests policy →
  let out := run (new_RateLimiter policy) ((λ t, (t, clientId)) <$> ts) in
  length out.1 = length ts
  ∧ (∀ i r, out.1 !! i = Some r →
            allowed r = true ∧ remaining r = maxRequests policy - Z.of_nat i - 1)
  ∧ stateOf out.2 clientId = {| requests := ts; blockedUntil := None |}.
Proof.
  intros Hwin Hlen out.
  destruct (burst_run (new_RateLimiter policy) clientId [] ts
              (stateOf_new policy clientId) Hwin Hlen) as (Hfin & Hn & Hres).
  split; [done|]. split; [|done].
  intros i r Hr. destruct (Hres i r Hr) as [Hal Hrem]. split; [done|].
  rewrite Hrem. simpl. lia.
Qed.

Lemma burst_within_quota_witness :
  let policy := {| maxRequests := 3; windowMs := 1000; blockDurationMs := None |} in
  let out := run (new_RateLimiter policy) ((λ t, (t, "c")) <$> [0; 0; 400]) in
  length out.1 = 3%nat
  ∧ (∀ i r, out.1 !! i = Some r →
            allowed r = true ∧ remaining r = 3 - Z.of_nat i - 1)
  ∧ stateOf out.2 "c" = {| requests := [0; 0; 400]; blockedUntil := None |}.
Proof.
  intros policy.
  apply (burst_within_quota policy "c" [0; 0; 400]).
  - intros t x Ht Hx. simpl.
    repeat (apply elem_of_cons in Ht as [->|Ht]);
      repeat (apply elem_of_cons in Hx as [->|Hx]);
      try lia; by apply not_elem_of_nil in Ht || by apply not_elem_of_nil in Hx.
  - simpl. lia.
Defined.

(** X5.  Once such a burst has used the whole quota, a further call of the
    client while all of the burst is still inside the window is denied with
    [remaining = 0]; it is flagged [blocked] exactly when the policy has a
    block duration. *)
Theorem quota_exhausted_denied policy clientId ts t' :
  (∀ t x, t ∈ ts → x ∈ ts → t - windowMs policy < x) →
  (∀ x, x ∈ ts → t' - windowMs policy < x) →
  Z.of_nat (length ts) = maxRequests policy →
  let rl := (run (new_RateLimiter policy) ((λ t, (t, clientId)) <$> ts)).2 in
  let r := (check t' clientId rl).1 in
  allowed r = false
  ∧ remaining r = 0
  ∧ blocked r = Some (0 <? default 0 (blockDurationMs policy)).
Proof.
  intros Hwin Hnext Hlen rl r.
  destruct (burst_run (new_RateLimiter policy) clientId [] ts
              (stateOf_new policy clientId) Hwin ltac:(simpl; lia))
    as (Hfin & _ & _).
  fold rl in Hfin. simpl in Hfin.
  assert (Hcfg : config rl = config (new_RateLimiter policy)) by apply run_config.
  unfold r. rewrite check_result, Hfin, Hcfg.
  destruct (check_state_path (config (new_RateLimiter policy)) t'
              {| requests := ts; blockedUntil := None |})
    as [b Hb _ _ | _ _ | _ Hroom]; [done | done |].
  exfalso. unfold expireBlock in Hroom. simpl in Hroom.
  rewrite trimWindow_id in Hroom; [lia|].
  apply Forall_forall. intros x Hx. simpl. by apply Hnext.
Qed.

Lemma quota_exhausted_denied_witness :
  let policy := {| maxRequests := 3; windowMs := 1000; blockDurationMs := None |} in
  let rl := (run (new_RateLimiter policy) ((λ t, (t, "c")) <$> [0; 0; 400])).2 in
  let r := (check 999 "c" rl).1 in
  allowed r = false ∧ remaining r = 0 ∧ blocked r = Some (0 <? 0).
Proof.
  intros policy.
  apply (quota_exhausted_denied policy "c" [0; 0; 400] 999).
  - intros t x Ht Hx. simpl.
    repeat (apply elem_of_cons in Ht as [->|Ht]);
      repeat (apply elem_of_cons in Hx as [->|Hx]);
      try lia; by apply not_elem_of_nil in Ht || by apply not_elem_of_nil in Hx.
  - intros x Hx. simpl.
    repeat (apply elem_of_cons in Hx as [->|Hx]); try lia.
    by apply not_elem_of_nil in Hx.
  - reflexivity.
Defined.

(** [check] on a tracked client under a block that is set, is not the
    falsy [0], and lies ahead. *)
Lemma check_active_block now clientId rl st b :
  clients rl !! clientId = Some st →
  blockedUntil st = Some b → b ≠ 0 → now < b →
  check now clientId rl
  = ({| allowed := false; remaining := 0; resetMs := b - now;
        blocked := Some true |}, rl).
Proof.
  intros Hst Hb Hnz Hlt.
  assert (Hblk : isActiveBlock now st = true).
  { apply isActiveBlock_true. eauto. }
  unfold check, stateOf. rewrite Hst. simpl.
  unfold check_state. rewrite Hblk, Hb. simpl.
  destruct rl as [c m]. simpl in *. do 2 f_equal. by apply insert_id.
Qed.

(** [check] on a tracked client whose block has run out. *)
Lemma check_expired_block now clientId rl st b :
  0 < cfg_maxRequests (config rl) →
  clients rl !! clientId = Some st →
  blockedUntil st = Some b → b ≠ 0 → b ≤ now →
  (check now clientId rl).1
  = {| allowed := true;
       remaining := cfg_maxRequests (config rl) - 1;
       resetMs := Z.max 0 (cfg_windowMs (config rl));
       blocked := None |}
  ∧ clients (check now clientId rl).2 !! clientId
    = Some {| requests := [now]; blockedUntil := None |}.
Proof.
  intros Hmax Hst Hb Hnz Hle. rewrite check_result, check_lookup.
  unfold stateOf. rewrite Hst. simpl.
  unfold check_state, isActiveBlock, expireBlock. rewrite Hb. simpl.
  assert ((b =? 0) = false) as -> by by apply Z.eqb_neq.
  assert ((now <? b) = false) as -> by by apply Z.ltb_ge.
  simpl. change (Z.of_nat 0) with 0.
  destruct (cfg_maxRequests (config rl) <=? 0) eqn:Hcmp.
  { apply Z.leb_le in Hcmp. lia. }
  simpl. split; [|done]. f_equal; [lia|]. f_equal. lia.
Qed.

(** X6.  Under a policy with a block duration, the [resetMs] of a denial
    is exact: every later call of the client before [now + resetMs] is
    denied as blocked, with the time left, and changes nothing; the call
    at [now + resetMs], or any first call after it, is admitted against an
    empty sequence.  Moments are [Date.now()] readings ([0 ≤ now]). *)
Theorem block_resetMs_exact now clientId rl :
  0 ≤ now →
  0 < cfg_blockDurationMs (config rl) →
  0 < cfg_maxRequests (config rl) →
  allowed (check now clientId rl).1 = false →
  let r := (check now clientId rl).1 in
  let rl1 := (check now clientId rl).2 in
  blocked r = Some true
  ∧ (∀ t, now ≤ t → t < now + resetMs r →
          check t clientId rl1
          = ({| allowed := false; remaining := 0;
                resetMs := now + resetMs r - t; blocked := Some true |}, rl1))
  ∧ (∀ t, now + resetMs r ≤ t →
          (check t clientId rl1).1
          = {| allowed := true;
               remaining := cfg_maxRequests (config rl) - 1;
               resetMs := Z.max 0 (cfg_windowMs (config rl));
               blocked := None |}
          ∧ clients (check t clientId rl1).2 !! clientId
            = Some {| requests := [t]; blockedUntil := None |}).
Proof.
  intros Hnow HB Hmax Hden r rl1.
  assert (Hcfg1 : config rl1 = config rl) by apply check_config.
  assert (Hst1 : ∃ st1, clients rl1 !! clientId = Some st1
                        ∧ blockedUntil st1 = Some (now + resetMs r)
                        ∧ now + resetMs r ≠ 0
                        ∧ blocked r = Some true).
  { unfold rl1, r. rewrite check_lookup. rewrite check_result in *.
    destruct (check_state_path (config rl) now (stateOf rl clientId))
      as [b Hb Hnz Hlt | _ _ | _ _]; [| |done].
    - eexists. split; [done|]. simpl. rewrite Hb.
      repeat split; [f_equal; lia | lia].
    - eexists. split; [done|]. simpl.
      assert ((0 <? cfg_blockDurationMs (config rl)) = true) as ->
        by by apply Z.ltb_lt.
      repeat split. lia. }
  destruct Hst1 as (st1 & Hst1 & Hbu & Hnz & Hflag).
  split; [done|]. split.
  - intros t _ Hlt.
    rewrite (check_active_block t clientId rl1 st1 (now + resetMs r)); done.
  - intros t Hle. rewrite <- Hcfg1.
    eapply check_expired_block; eauto. by rewrite Hcfg1.
Qed.

Lemma block_resetMs_exact_witness :
  let rl := (check 0 "c" (new_RateLimiter blockingPolicy)).2 in
  let r := (check 10 "c" rl).1 in
  let rl1 := (check 10 "c" rl).2 in
  blocked r = Some true
  ∧ (∀ t, 10 ≤ t → t < 10 + resetMs r →
          check t "c" rl1
          = ({| allowed := false; remaining := 0;
                resetMs := 10 + resetMs r - t; blocked := Some true |}, rl1))
  ∧ (∀ t, 10 + resetMs r ≤ t →
          (check t "c" rl1).1
          = {| allowed := true; remaining := 1 - 1;
               resetMs := Z.max 0 50; blocked := None |}
          ∧ clients (check t "c" rl1).2 !! "c"
            = Some {| requests := [t]; blockedUntil := None |}).
Proof.
  intros rl.
  apply (block_resetMs_exact 10 "c" rl);
    [lia | vm_compute; reflexivity | vm_compute; reflexivity | reflexivity].
Defined.

(** X7.  [getClientState] foretells [check] at the same moment.  For a
    tracked client it always answers; when it reports [blocked], [check]
    denies as blocked; and when no block is recorded for the client,
    [check] admits exactly when the reported [requestCount] is below
    [maxRequests], with [remaining = maxRequests - requestCount - 1]. *)
Theorem getClientState_foretells_check now clientId rl st :
  clients rl !! clientId = Some st →
  ∃ snap,
    getClientState now clientId rl = Some snap
    ∧ snap_blockedUntil snap = blockedUntil st
    ∧ (snap_blocked snap = true →
       allowed (check now clientId rl).1 = false
       ∧ blocked (check now clientId rl).1 = Some true)
    ∧ (truthy (blockedUntil st) = false →
       snap_blocked snap = false
       ∧ (allowed (check now clientId rl).1 = true
          ↔ Z.of_nat (requestCount snap) < cfg_maxRequests (config rl))
       ∧ (allowed (check now clientId rl).1 = true →
          remaining (check now clientId rl).1
          = cfg_maxRequests (config rl) - Z.of_nat (requestCount snap) - 1)).
Proof.
  intros Hst. unfold getClientState. rewrite Hst. eexists. split; [done|].
  simpl. split; [done|]. rewrite check_result. unfold stateOf. rewrite Hst. simpl.
  split.
  - intros Hblk.
    destruct (check_state_path (config rl) now st)
      as [b _ _ _ | Hfree _ | Hfree _]; [done | congruence | congruence].
  - intros Hfalsy.
    assert (Hfree : isActiveBlock now st = false).
    { unfold isActiveBlock. by rewrite Hfalsy. }
    assert (Hexp : expireBlock st = st).
    { unfold expireBlock. by rewrite Hfalsy. }
    split; [done|].
    destruct (check_state_path (config rl) now st)
      as [b Hb Hnz Hlt | _ Hfull | _ Hroom]; rewrite ?Hexp in *; simpl.
    + assert (isActiveBlock now st = true); [|congruence].
      apply isActiveBlock_true. eauto.
    + split; [|done]. split; [done | lia].
    + split; [|done]. split; done.
Qed.

Lemma getClientState_foretells_check_witness :
  let rl := {| config := mkResolvedConfig 3 1000 0;
               clients := {[ "c" := {| requests := [100; 400];
                                       blockedUntil := None |} ]} |} in
  ∃ snap,
    getClientState 1200 "c" rl = Some snap
    ∧ snap_blockedUntil snap = None
    ∧ (snap_blocked snap = true →
       allowed (check 1200 "c" rl).1 = false
       ∧ blocked (check 1200 "c" rl).1 = Some true)
    ∧ (truthy (@None Z) = false →
       snap_blocked snap = false
       ∧ (allowed (check 1200 "c" rl).1 = true
          ↔ Z.of_nat (requestCount snap) < 3)
       ∧ (allowed (check 1200 "c" rl).1 = true →
          remaining (check 1200 "c" rl).1 = 3 - Z.of_nat (requestCount snap) - 1)).
Proof.
  intros rl.
  apply (getClientState_foretells_check 1200 "c" rl
           {| requests := [100; 400]; blockedUntil := None |}).
  reflexivity.
Defined.

(* ===================================================================== *)
(** * Further properties of the sweep                                     *)
(* ===================================================================== *)

Lemma cleanup_lookup now rl clientId :
  clients (cleanup now rl) !! clientId
  = clients rl !! clientId ≫= cleanup_entry (config rl) now.
Proof. unfold cleanup. simpl. apply lookup_omap. Qed.

(** An entry the sweep keeps is one the sweep would leave alone. *)
Lemma cleanup_entry_fixed cfg now st st' :
  cleanup_entry cfg now st = Some st' → cleanup_entry cfg now st' = Some st'.
Proof.
  unfold cleanup_entry.
  destruct (bool_decide _ && negb (truthy _)) eqn:Hdrop; [done|].
  intros [= <-]. simpl.
  rewrite (trimWindow_later cfg now now) by lia.
  set (bu := if truthy (blockedUntil st) && (default 0 (blockedUntil st) <=? now)
             then None else blockedUntil st) in *.
  assert (Hbu : (if truthy bu && (default 0 bu <=? now) then None else bu) = bu).
  { unfold bu. destruct (truthy (blockedUntil st) && _) eqn:Hexp; [done|].
    by rewrite Hexp. }
  rewrite Hbu, Hdrop. done.
Qed.

(** X8.  [cleanup] is idempotent at a moment: sweeping twice at [now]
    leaves the limiter as sweeping once does. *)
Theorem cleanup_idempotent now rl :
  cleanup now (cleanup now rl) = cleanup now rl.
Proof.
  unfold cleanup. simpl. f_equal. apply map_eq. intros c.
  rewrite !lookup_omap.
  destruct (clients rl !! c) as [st|]; simpl; [|done].
  destruct (cleanup_entry (config rl) now st) as [st'|] eqn:Hentry; simpl; [|done].
  by apply cleanup_entry_fixed in Hentry.
Qed.

(** X9.  A sweep does not change what a later [check] answers, unless it
    meets a block that has run out: if the client's [blockedUntil], when
    set and non-zero, is still ahead at the sweep, then the [check] at any
    moment from the sweep on answers as it would have without the sweep,
    also when the sweep dropped the client's entry. *)
Theorem cleanup_transparent t1 t2 clientId rl :
  t1 ≤ t2 →
  (∀ b, blockedUntil (stateOf rl clientId) = Some b → b ≠ 0 → t1 < b) →
  (check t2 clientId (cleanup t1 rl)).1 = (check t2 clientId rl).1.
Proof.
  intros Hle Hahead. rewrite !check_result.
  change (config (cleanup t1 rl)) with (config rl).
  unfold stateOf in *. rewrite cleanup_lookup.
  destruct (clients rl !! clientId) as [st|]; simpl in *; [|done].
  assert (Hkeep : (truthy (blockedUntil st)
                   && (default 0 (blockedUntil st) <=? t1)) = false).
  { destruct (blockedUntil st) as [b|] eqn:Hb; simpl; [|done].
    destruct (decide (b = 0)) as [->|Hnz]; [done|].
    specialize (Hahead b eq_refl Hnz).
    apply andb_false_iff. right. apply Z.leb_gt. lia. }
  unfold cleanup_entry. rewrite Hkeep.
  destruct (bool_decide _ && negb (truthy (blockedUntil st))) eqn:Hdrop; simpl.
  - apply andb_true_iff in Hdrop as [Hnil Hfalsy].
    apply bool_decide_eq_true, length_zero_iff_nil in Hnil.
    apply negb_true_iff in Hfalsy.
    apply check_state_result_congr.
    + unfold isActiveBlock. by rewrite Hfalsy.
    + unfold isActiveBlock. simpl. done.
    + unfold expireBlock. rewrite Hfalsy. simpl.
      by rewrite <- (trimWindow_later (config rl) t1 t2 (requests st)), Hnil.
  - apply check_state_result_congr; [done | done |].
    unfold expireBlock. simpl.
    destruct (truthy (blockedUntil st)); [done|]. simpl.
    by apply trimWindow_later.
Qed.

Lemma cleanup_transparent_witness :
  let rl := {| config := mkResolvedConfig 2 1000 0;
               clients := {[ "c" := {| requests := [0; 700];
                                       blockedUntil := None |} ]} |} in
  (check 1500 "c" (cleanup 1200 rl)).1 = (check 1500 "c" rl).1.
Proof.
  intros rl. apply (cleanup_transparent 1200 1500 "c" rl); [lia|].
  intros b Hb. vm_compute in Hb. discriminate.
Defined.

(** X10.  A sweep that meets a block that has run out does change the next
    [check].  Without the sweep, that [check] clears the history and, under
    a positive quota, admits.  After the sweep the block is gone but the
    history is not, and the [check] admits only if what the window still
    holds of it is below the quota. *)
Theorem cleanup_after_block_expiry t1 t2 clientId rl st b :
  0 < cfg_maxRequests (config rl) →
  clients rl !! clientId = Some st →
  blockedUntil st = Some b → b ≠ 0 → b ≤ t1 → t1 ≤ t2 →
  allowed (check t2 clientId rl).1 = true
  ∧ (allowed (check t2 clientId (cleanup t1 rl)).1 = true
     ↔ Z.of_nat (length (trimWindow (config rl) t2 (requests st)))
       < cfg_maxRequests (config rl)).
Proof.
  intros Hmax Hst Hb Hnz Hexp Hle. split.
  - destruct (check_expired_block t2 clientId rl st b) as [-> _]; try done. lia.
  - rewrite check_result. change (config (cleanup t1 rl)) with (config rl).
    unfold stateOf. rewrite cleanup_lookup, Hst. simpl.
    unfold cleanup_entry. rewrite Hb. simpl.
    assert ((b =? 0) = false) as -> by by apply Z.eqb_neq.
    assert ((b <=? t1) = true) as -> by by apply Z.leb_le.
    simpl. rewrite andb_true_r.
    case_bool_decide as Hnil; simpl.
    + apply length_zero_iff_nil in Hnil.
      rewrite <- (trimWindow_later (config rl) t1 t2 (requests st)), Hnil by done.
      unfold check_state. simpl. change (Z.of_nat 0) with 0.
      destruct (cfg_maxRequests (config rl) <=? 0) eqn:Hcmp; simpl; [|done].
      apply Z.leb_le in Hcmp. lia.
    + destruct (check_state_path (config rl) t2
                  {| requests := trimWindow (config rl) t1 (requests st);
                     blockedUntil := None |})
        as [b' Hb' _ _ | _ Hfull | _ Hroom]; [done | |];
        unfold expireBlock in *; simpl in *;
        rewrite trimWindow_later in * by done.
      * split; [done | lia].
      * done.
Qed.

Lemma cleanup_after_block_expiry_witness :
  let rl := {| config := mkResolvedConfig 2 1000 10;
               clients := {[ "c" := {| requests := [0; 1];
                                       blockedUntil := Some 12 |} ]} |} in
  allowed (check 13 "c" rl).1 = true
  ∧ (allowed (check 13 "c" (cleanup 12 rl)).1 = true
     ↔ Z.of_nat (length (trimWindow (config rl) 13 [0; 1])) < 2).
Proof.
  intros rl.
  apply (cleanup_after_block_expiry 12 13 "c" rl
           {| requests := [0; 1]; blockedUntil := Some 12 |} 12);
    [simpl; lia | reflexivity | reflexivity | lia | lia | lia].
Defined.

(** X11.  Once every tracked client has been silent for a window and has
    no block ahead, one sweep empties the limiter. *)
Theorem cleanup_empties now rl :
  (∀ clientId st, clients rl !! clientId = Some st →
     Forall (λ ts, ts ≤ now - cfg_windowMs (config rl)) (requests st)
     ∧ ∀ b, blockedUntil st = Some b → b ≤ now) →
  clientCount (cleanup now rl) = 0%nat.
Proof.
  intros Hstale. unfold clientCount. apply map_size_empty_iff, map_eq.
  intros c. rewrite lookup_empty, cleanup_lookup.
  destruct (clients rl !! c) as [st|] eqn:Hst; simpl; [|done].
  destruct (Hstale c st Hst) as [Hold Hbu].
  unfold cleanup_entry. rewrite trimWindow_none by done. simpl.
  destruct (blockedUntil st) as [b|]; simpl; [|done].
  specialize (Hbu b eq_refl).
  destruct (decide (b = 0)) as [->|Hnz]; [done|].
  assert ((b =? 0) = false) as -> by by apply Z.eqb_neq.
  assert ((b <=? now) = true) as -> by by apply Z.leb_le.
  done.
Qed.

Lemma cleanup_empties_witness :
  clientCount (cleanup 100 (check 0 "client1" shortWindow).2) = 0%nat.
Proof.
  apply (cleanup_empties 100 (check 0 "client1" shortWindow).2).
  intros clientId st Hst.
  destruct (decide (clientId = "client1")) as [->|Hne].
  - vm_compute in Hst. injection Hst as <-. split.
    + repeat constructor. vm_compute. discriminate.
    + intros b Hb. discriminate.
  - rewrite check_lookup_ne in Hst by done. vm_compute in Hst. discriminate.
Defined.

(* ===================================================================== *)
(** * What histories of [check] and [consume] leave                       *)
(* ===================================================================== *)

(** [check] tracks nobody but its caller. *)
Lemma run_tracked rl calls clientId :
  is_Some (clients (run rl calls).2 !! clientId) →
  is_Some (clients rl !! clientId) ∨ clientId ∈ calls.*2.
Proof.
  revert rl. induction calls as [|[now c] rest IH]; intros rl Htracked.
  - by left.
  - rewrite run_cons in Htracked. simpl in Htracked.
    destruct (IH _ Htracked) as [Hnow|Hlater].
    + destruct (decide (c = clientId)) as [->|Hne].
      * right. simpl. by left.
      * left. by rewrite check_lookup_ne in Hnow.
    + right. simpl. by right.
Qed.

(** X12.  After any history of [check] calls on a fresh limiter in which
    the clock does not run backwards, every tracked client is one that
    called, and its sequence is in chronological order, holds no moment
    later than the latest call, and is no longer than [maxRequests]. *)
Theorem history_sequences_bounded policy calls final clientId st :
  0 ≤ maxRequests policy →
  monotone calls →
  Forall (λ t, t ≤ final) (calls.*1) →
  clients (run (new_RateLimiter policy) calls).2 !! clientId = Some st →
  clientId ∈ calls.*2
  ∧ StronglySorted Z.le (requests st)
  ∧ Forall (λ ts, ts ≤ final) (requests st)
  ∧ Z.of_nat (length (requests st)) ≤ maxRequests policy.
Proof.
  intros Hmax Hmono Hfin Hst. split.
  - destruct (run_tracked (new_RateLimiter policy) calls clientId) as [Habs|Hin];
      [by rewrite Hst | | done].
    simpl in Habs. rewrite lookup_empty in Habs. by destruct Habs.
  - pose proof (history_ok policy calls final clientId Hmax Hmono Hfin) as Hok.
    unfold stateOf in Hok. rewrite Hst in Hok. simpl in Hok.
    by destruct Hok as [Hs Hp Hq _].
Qed.

Lemma history_sequences_bounded_witness :
  clients (run (new_RateLimiter shortBlockPolicy) shortBlockHistory).2 !! "c"
  = Some {| requests := [12; 13]; blockedUntil := None |}
  ∧ "c" ∈ shortBlockHistory.*2
  ∧ StronglySorted Z.le [12; 13]
  ∧ Forall (λ ts, ts ≤ 13) [12; 13]
  ∧ Z.of_nat (length [12; 13]) ≤ 2.
Proof.
  split; [vm_compute; reflexivity|].
  apply (history_sequences_bounded shortBlockPolicy shortBlockHistory 13 "c"
           {| requests := [12; 13]; blockedUntil := None |}).
  - simpl. lia.
  - unfold monotone. simpl. repeat first [lia | constructor].
  - simpl. repeat first [lia | constructor].
  - vm_compute. reflexivity.
Defined.

(** X13.  [consume] is not gated by the quota and costs one slot.  On a
    client that is not tracked it does nothing.  On a tracked client
    without a recorded block, under a positive window, the [check] that
    follows at the same moment admits exactly when the window held fewer
    than [maxRequests - 1] timestamps before the [consume]. *)
Theorem consume_costs_one_slot now clientId rl :
  0 < cfg_windowMs (config rl) →
  (clients rl !! clientId = None → consume now clientId rl = rl)
  ∧ (∀ st, clients rl !! clientId = Some st →
           truthy (blockedUntil st) = false →
           (allowed (check now clientId (consume now clientId rl)).1 = true
            ↔ Z.of_nat (length (trimWindow (config rl) now (requests st))) + 1
              < cfg_maxRequests (config rl))).
Proof.
  intros HW. split.
  - intros Hnone. unfold consume. by rewrite Hnone.
  - intros st Hst Hfalsy. rewrite check_result.
    assert (Hcons : stateOf (consume now clientId rl) clientId
                    = {| requests := requests st ++ [now];
                         blockedUntil := blockedUntil st |}).
    { unfold stateOf, consume. rewrite Hst. simpl. by rewrite lookup_insert_eq. }
    assert (Hcfg : config (consume now clientId rl) = config rl).
    { unfold consume. by rewrite Hst. }
    rewrite Hcons, Hcfg.
    set (st' := {| requests := requests st ++ [now];
                   blockedUntil := blockedUntil st |}).
    assert (Htrim : trimWindow (config rl) now (requests (expireBlock st'))
                    = trimWindow (config rl) now (requests st) ++ [now]).
    { unfold expireBlock. simpl. rewrite Hfalsy. simpl.
      rewrite trimWindow_app. f_equal.
      apply trimWindow_id, Forall_singleton. lia. }
    destruct (check_state_path (config rl) now st')
      as [b Hb Hnz Hlt | _ Hfull | _ Hroom]; simpl.
    + simpl in Hb. rewrite Hb in Hfalsy. simpl in Hfalsy.
      apply negb_false_iff, Z.eqb_eq in Hfalsy. done.
    + rewrite Htrim, length_app in Hfull. simpl in Hfull. split; [done | lia].
    + rewrite Htrim, length_app in Hroom. simpl in Hroom. split; [lia | done].
Qed.

Lemma consume_costs_one_slot_witness :
  let rl := {| config := mkResolvedConfig 3 1000 0;
               clients := {[ "c" := {| requests := [100; 400];
                                       blockedUntil := None |} ]} |} in
  (clients rl !! "c" = None → consume 500 "c" rl = rl)
  ∧ (∀ st, clients rl !! "c" = Some st →
           truthy (blockedUntil st) = false →
           (allowed (check 500 "c" (consume 500 "c" rl)).1 = true
            ↔ Z.of_nat (length (trimWindow (config rl) 500 (requests st))) + 1 < 3)).
Proof.
  intros rl. apply (consume_costs_one_slot 500 "c" rl). simpl. lia.
Defined.

(* ===================================================================== *)
(** * Further properties of the gate                                      *)
(* ===================================================================== *)

Lemma validType_nonempty ty messageType :
  validType ty = Some messageType → messageType ≠ "".
Proof.
  unfold validType. destruct ty as [[]|]; try done.
  case_bool_decide; [done|]. by intros [= <-].
Qed.

Section GateExtras.

Variable JSON_parse : string → option JSON.

(** The outcome of [handleMessage] once its [check] has admitted and the
    payload has been parsed to a message of a valid type. *)
Lemma handleMessage_dispatch now client rawMessage srv message ty messageType :
  allowed (check now (getClientId (options srv) client) (rateLimiter srv)).1 = true →
  JSON_parse rawMessage = Some message →
  typeField message = inr ty →
  validType ty = Some messageType →
  (handleMessage JSON_parse now client rawMessage srv).1
  = match handlers srv !! messageType with
    | None =>
        (Resolved,
         [SendError (id client)
            (createErrorResponse UNKNOWN_MESSAGE_TYPE
               (includeSuggestions (options srv)) None)])
    | Some handler =>
        runHandler (options srv) (getClientId (options srv) client) client
          messageType handler message
    end.
Proof.
  intros Hadm Hparse Hty Hvalid. unfold handleMessage.
  destruct (check now _ (rateLimiter srv)) as [result rl']. simpl in Hadm.
  rewrite Hadm, Hparse, Hty, Hvalid. simpl.
  destruct (handlers srv !! messageType); [|done].
  by destruct (runHandler _ _ _ _ _ _).
Qed.



(** X16.  Registration decides dispatch.  For an admitted message of a
    valid type: after [on] for that type the message is run by the handler
    just registered, whatever was registered before; after [off] for that
    type it is answered with [UNKNOWN_MESSAGE_TYPE]; and [on] or [off] for
    any other type changes nothing in its outcome. *)
Theorem on_off_dispatch now client rawMessage srv message ty messageType h :
  allowed (check now (getClientId (options srv) client) (rateLimiter srv)).1 = true →
  JSON_parse rawMessage = Some message →
  typeField message = inr ty →
  validType ty = Some messageType →
  (handleMessage JSON_parse now client rawMessage (on messageType h srv)).1
  = runHandler (options srv) (getClientId (options srv) client) client
      messageType h message
  ∧ (handleMessage JSON_parse now client rawMessage (off messageType srv)).1
    = (Resolved,
       [SendError (id client)
          (createErrorResponse UNKNOWN_MESSAGE_TYPE
             (includeSuggestions (options srv)) None)])
  ∧ (∀ other h',
       other ≠ messageType →
       (handleMessage JSON_parse now client rawMessage (on other h' srv)).1
       = (handleMessage JSON_parse now client rawMessage srv).1
       ∧ (handleMessage JSON_parse now client rawMessage (off other srv)).1
         = (handleMessage JSON_parse now client rawMessage srv).1).
Proof.
  intros Hadm Hparse Hty Hvalid.
  pose proof (handleMessage_dispatch now client rawMessage srv message ty
                messageType Hadm Hparse Hty Hvalid) as Hsrv.
  split; [|split].
  - rewrite (handleMessage_dispatch now client rawMessage (on messageType h srv)
               message ty messageType); try done.
    simpl. by rewrite lookup_insert_eq.
  - rewrite (handleMessage_dispatch now client rawMessage (off messageType srv)
               message ty messageType); try done.
    simpl. by rewrite lookup_delete_eq.
  - intros other h' Hne. rewrite Hsrv. split.
    + rewrite (handleMessage_dispatch now client rawMessage (on other h' srv)
                 message ty messageType); try done.
      simpl. by rewrite lookup_insert_ne.
    + rewrite (handleMessage_dispatch now client rawMessage (off other srv)
                 message ty messageType); try done.
      simpl. by rewrite lookup_delete_ne.
Qed.

(** X17.  A handler that throws an [Error] does not fail the gate: the
    promise is fulfilled, one line is logged that names the code, the
    client, the message type and the error's message, and the client is
    sent one [HANDLER_ERROR] payload (status 500) that is the same whatever
    the error was. *)
Theorem handler_error_contained now client rawMessage srv message ty
    messageType (handler : MessageHandler) msg :
  allowed (check now (getClientId (options srv) client) (rateLimiter srv)).1 = true →
  JSON_parse rawMessage = Some message →
  typeField message = inr ty →
  validType ty = Some messageType →
  handlers srv !! messageType = Some handler →
  handler client message = Failed (ErrorObject msg) →
  getClientId (options srv) client ≠ "" →
  (handleMessage JSON_parse now client rawMessage srv).1
  = (Resolved,
     [ConsoleError
        ("[HANDLER_ERROR] | Handler Error | client="
         +:+ getClientId (options srv) client
         +:+ " | type=" +:+ messageType +:+ " | error=" +:+ msg);
      SendError (id client)
        {| code := HANDLER_ERROR;
           resp_statusCode := 500;
           resp_title := "Handler Error";
           hasSuggestion := includeSuggestions (options srv);
           resp_recoverable := true;
           retryAfterMs := None |}]).
Proof.
  intros Hadm Hparse Hty Hvalid Hh Hfail Hid.
  rewrite (handleMessage_dispatch now client rawMessage srv message ty messageType
             Hadm Hparse Hty Hvalid).
  rewrite Hh. unfold runHandler. rewrite Hfail.
  pose proof (validType_nonempty ty messageType Hvalid) as Hne.
  unfold formatErrorForLogging.
  rewrite !bool_decide_eq_false_2 by done.
  reflexivity.
Qed.


End GateExtras.


Lemma on_off_dispatch_witness :
  (handleMessage parsePing 0 {| id := "c1" |} pingText
     (on "ping" pongHandler tightServer)).1
  = runHandler defaultOptions "c1" {| id := "c1" |} "ping" pongHandler pingMessage
  ∧ (handleMessage parsePing 0 {| id := "c1" |} pingText (off "ping" tightServer)).1
    = (Resolved,
       [SendError "c1" (createErrorResponse UNKNOWN_MESSAGE_TYPE true None)])
  ∧ (∀ other h',
       other ≠ "ping" →
       (handleMessage parsePing 0 {| id := "c1" |} pingText (on other h' tightServer)).1
       = (handleMessage parsePing 0 {| id := "c1" |} pingText tightServer).1
       ∧ (handleMessage parsePing 0 {| id := "c1" |} pingText (off other tightServer)).1
         = (handleMessage parsePing 0 {| id := "c1" |} pingText tightServer).1).
Proof.
  apply (on_off_dispatch parsePing 0 {| id := "c1" |} pingText tightServer
           pingMessage (Some (JString "ping")) "ping" pongHandler);
    reflexivity.
Defined.

Lemma handler_error_contained_witness :
  (handleMessage parsePing 0 {| id := "c1" |} pingText
     (on "ping" failingHandler tightServer)).1
  = (Resolved,
     [ConsoleError
        ("[HANDLER_ERROR] | Handler Error | client=" +:+ "c1"
         +:+ " | type=" +:+ "ping" +:+ " | error=" +:+ "boom");
      SendError "c1"
        {| code := HANDLER_ERROR;
           resp_statusCode := 500;
           resp_title := "Handler Error";
           hasSuggestion := true;
           resp_recoverable := true;
           retryAfterMs := None |}]).
Proof.
  apply (handler_error_contained parsePing 0 {| id := "c1" |} pingText
           (on "ping" failingHandler tightServer)
           pingMessage (Some (JString "ping")) "ping" failingHandler "boom");
    try reflexivity.
  discriminate.
Defined.

(* ===================================================================== *)
(** * The wrapping handler                                                *)
(* ===================================================================== *)


(* ===================================================================== *)
(** * The error payload                                                   *)
(* ===================================================================== *)

